(** * Interpolation of missing Z values on a line

    A shallow embedding of the core of [interpolate_missing_z_on_line.py]:
    the helper functions [interpolate_z], [idx_first_last_valid_items] and
    [fill_list_ends], and the feature loop of
    [InterpolateMissingZOnLine.processAlgorithm] with its vertex loop, which
    interpolates the interior missing values of one line.

    Modelling choices.
    - A Python list is a [list]; [l[i]] with a non-negative index is the
      stdpp lookup [l !! i] and raises [IndexError] out of range, [l[-1]] is
      [last l], and [l[i] = x] is the stdpp insert [<[i:=x]> l], which also
      raises [IndexError] out of range.
    - Exceptions are explicit: every function returns a [result], either
      [Ok v] or [Raise e].  A local variable that is assigned on some paths
      only is an [option]; reading it while unset raises
      [UnboundLocalError].
    - List positions are [nat] (they come from [enumerate], [range] and
      [len]); the number of filled items is computed in [Z].
    - Python's [==] is a method of the items: the class [PyEq] gives it for
      an element type, and [!=] is its negation.  [fill_list_ends] and
      [idx_first_last_valid_items] work on every such type.  On a type with
      a decidable equality, [==] is that equality.  [x in l] and
      [l.count(x)] also hold for an item that is the very object [x]; the
      items compared here are never the same object as the invalid item.
    - Z values and distances are Python floats, that is IEEE 754 binary64
      numbers, with their signed zeros, infinities and NaN.  They are the
      [spec_float] of the standard library with a 53 bit mantissa and the
      exponent bound 1024, and [+], [-], [*] and [/] are its operations,
      which round to nearest, ties to even.  [==] on floats is the IEEE
      comparison: NaN differs from every float and [0.0 == -0.0].  The
      division raises [ZeroDivisionError] when the divisor is a zero, as
      Python's does; no other float operation raises.  The [int] 0 at the
      head of [dist] takes part in float operations only, where it is
      converted to [0.0]; it is modelled as this float. *)

From Stdlib Require Import ZArith Lia SpecFloat.
From stdpp Require Import base numbers list.

(** * Part 1: the program *)

(** ** Exceptions *)

Inductive exn : Set :=
  | IndexError
  | UnboundLocalError
  | ZeroDivisionError.

Inductive result (A : Type) : Type :=
  | Ok (a : A)
  | Raise (e : exn).
Arguments Ok {A} a.
Arguments Raise {A} e.

Global Instance result_bind : MBind result := λ A B k m,
  match m with
  | Ok a => k a
  | Raise e => Raise e
  end.

(** [for x in xs: s = body(s, x)], stopping at the first exception. *)
Fixpoint for_each {S X : Type} (body : S → X → result S) (xs : list X) (s : S)
  : result S :=
  match xs with
  | [] => Ok s
  | x :: xs' => s' ← body s x; for_each body xs' s'
  end.

(** ** Python list primitives *)

(** [l[i]] for [i >= 0]. *)
Definition getitem {A : Type} (l : list A) (i : nat) : result A :=
  match l !! i with
  | Some x => Ok x
  | None => Raise IndexError
  end.

(** [l[-1]]. *)
Definition getitem_last {A : Type} (l : list A) : result A :=
  match last l with
  | Some x => Ok x
  | None => Raise IndexError
  end.

(** [l[i] = x] for [i >= 0]. *)
Definition setitem {A : Type} (l : list A) (i : nat) (x : A) : result (list A) :=
  if decide (i < length l) then Ok (<[i:=x]> l) else Raise IndexError.

(** [enumerate(l)], with the start index made explicit. *)
Fixpoint enumerate_from {A : Type} (n : nat) (l : list A) : list (nat * A) :=
  match l with
  | [] => []
  | x :: l' => (n, x) :: enumerate_from (S n) l'
  end.

Definition enumerate {A : Type} (l : list A) : list (nat * A) :=
  enumerate_from 0 l.

(** Reading a local variable that may not have been assigned. *)
Definition local {A : Type} (v : option A) : result A :=
  match v with
  | Some x => Ok x
  | None => Raise UnboundLocalError
  end.

(** Python's [x == y] and [x != y]. *)
Class PyEq (A : Type) := py_eq : A → A → bool.

Definition py_ne {A : Type} `{PyEq A} (x y : A) : bool := negb (py_eq x y).

(** On a type with a decidable equality, [==] is the equality. *)
Global Instance eq_dec_py_eq {A : Type} `{EqDecision A} : PyEq A :=
  λ x y, bool_decide (x = y).

(** ** The end filler *)

(** The loop
<<
    for idx, e in es:
        if e == invalid_item:
            continue
        idx_valid_item = idx
        break
>>
    of [idx_first_last_valid_items], run on [enumerate(list_)] and on
    [enumerate(reversed(list_))].  The result is the value of
    [idx_valid_item] after the loop, unset when the loop ends without
    reaching the assignment. *)
Fixpoint first_valid_idx {A : Type} `{PyEq A} (invalid_item : A)
    (es : list (nat * A)) : option nat :=
  match es with
  | [] => None
  | (idx, e) :: es' =>
      if py_eq e invalid_item then first_valid_idx invalid_item es'
      else Some idx
  end.

Definition idx_first_last_valid_items {A : Type} `{PyEq A}
    (list_ : list A) (invalid_item : A) : result (nat * nat) :=
  x0 ← getitem list_ 0;
  let idx_first_valid_item :=
    if py_ne x0 invalid_item then Some 0
    else first_valid_idx invalid_item (enumerate list_) in
  xl ← getitem_last list_;
  let idx_last_valid_item :=
    if py_ne xl invalid_item then Some (length list_ - 1)
    else (λ idx, length list_ - idx - 1)
           <$> first_valid_idx invalid_item (enumerate (reverse list_)) in
  first ← local idx_first_valid_item;
  last ← local idx_last_valid_item;
  Ok (first, last).

(** One iteration of the filling loop of [fill_list_ends]; the two [if]
    statements are run one after the other, as in the source, and both read
    the original [list_]. *)
Definition fill_step {A : Type} (list_ : list A)
    (idx_first_valid_item idx_last_valid_item : nat)
    (new_list : list A) (i : nat) : result (list A) :=
  new_list ← (if decide (i < idx_first_valid_item)
              then x ← getitem list_ idx_first_valid_item; setitem new_list i x
              else Ok new_list);
  if decide (idx_last_valid_item < i)
  then x ← getitem list_ idx_last_valid_item; setitem new_list i x
  else Ok new_list.

(** [fill_list_ends] returns [None] when every item is invalid, and the
    pair of the filled list and the number of filled items otherwise. *)
Definition fill_list_ends {A : Type} `{PyEq A}
    (list_ : list A) (invalid_item : A) : result (option (list A * Z)) :=
  if forallb (λ e, py_eq e invalid_item) list_ then Ok None
  else if negb (existsb (λ e, py_eq e invalid_item) list_) then Ok (Some (list_, 0%Z))
  else
    '(idx_first_valid_item, idx_last_valid_item)
      ← idx_first_last_valid_items list_ invalid_item;
    new_list ← for_each (fill_step list_ idx_first_valid_item idx_last_valid_item)
                        (seq 0 (length list_)) list_;
    let no_filled_item :=
      (Z.of_nat (length list_) - Z.of_nat idx_last_valid_item - 1
       + Z.of_nat idx_first_valid_item)%Z in
    Ok (Some (new_list, no_filled_item)).

(** ** Python floats *)

(** The floats of Python are the IEEE 754 binary64 numbers. *)
Definition float : Type := spec_float.

Definition prec : Z := 53.
Definition emax : Z := 1024.

Definition fadd (x y : float) : float := SFadd prec emax x y.
Definition fsub (x y : float) : float := SFsub prec emax x y.
Definition fmul (x y : float) : float := SFmul prec emax x y.
Definition fdiv (x y : float) : float := SFdiv prec emax x y.

Declare Scope float_scope.
Delimit Scope float_scope with F.
Infix "+" := fadd : float_scope.
Infix "-" := fsub : float_scope.
Infix "*" := fmul : float_scope.
Infix "/" := fdiv : float_scope.

(** [x == y] on floats. *)
Global Instance float_py_eq : PyEq float := SFeqb.

Definition zero : float := S754_zero false.
Definition inf : float := S754_infinity false.
Definition nan : float := S754_nan.

(** [float(n)] for an [int] [n], rounded to nearest. *)
Definition of_int (n : Z) : float := binary_normalize prec emax n 0 false.

(** ** The interior interpolator *)

(** Python's [x / y] on floats. *)
Definition py_div (x y : float) : result float :=
  if py_eq y zero then Raise ZeroDivisionError else Ok (x / y)%F.

Definition interpolate_z (d_target d_start d_end z_start z_end : float) : result float :=
  q ← py_div ((z_end - z_start) * (d_target - d_start))%F (d_end - d_start)%F;
  Ok (z_start + q)%F.

(** The loop
<<
    while base_z_values[end_interp_idx] == nodataz:
        end_interp_idx += 1
>>
    The items read by the successive tests are those of the list from
    [end_interp_idx] on, and the read past the last item raises
    [IndexError]; [while_invalid_unfold] states the loop equation. *)
Fixpoint skip_invalid (nodataz : float) (rest : list float) (end_interp_idx : nat)
  : result nat :=
  match rest with
  | [] => Raise IndexError
  | z :: rest' =>
      if py_eq z nodataz then skip_invalid nodataz rest' (S end_interp_idx)
      else Ok end_interp_idx
  end.

Definition while_invalid (base_z_values : list float) (nodataz : float)
    (end_interp_idx : nat) : result nat :=
  skip_invalid nodataz (drop end_interp_idx base_z_values) end_interp_idx.

(** The local variables of the vertex loop. *)
Record locals : Type := Locals {
  end_interp_idx : nat;
  start_interp_z : option float;
  start_interp_dist : option float;
  end_interp_z : option float;
  end_interp_dist : option float;
  new_zs : list float
}.

(** [new_zs.append(new_z)]. *)
Definition append_new_z (st : locals) (new_z : float) : locals :=
  Locals (end_interp_idx st) (start_interp_z st) (start_interp_dist st)
         (end_interp_z st) (end_interp_dist st) (new_zs st ++ [new_z]).

(** The body of the loop
    [for vert_idx, (current_dist, current_z) in enumerate(zip(dist, base_z_values))]. *)
Definition vertex_step (dist base_z_values : list float) (nodataz : float)
    (st : locals) (item : nat * (float * float)) : result locals :=
  let '(vert_idx, (current_dist, current_z)) := item in
  if py_ne current_z nodataz then
    Ok (append_new_z
          (Locals (end_interp_idx st) (Some current_z) (Some current_dist)
                  (end_interp_z st) (end_interp_dist st) (new_zs st))
          current_z)
  else
    st ← (if decide (end_interp_idx st ≤ vert_idx) then
            idx ← while_invalid base_z_values nodataz (S vert_idx);
            z ← getitem base_z_values idx;
            d ← getitem dist idx;
            Ok (Locals idx (start_interp_z st) (start_interp_dist st)
                       (Some z) (Some d) (new_zs st))
          else Ok st);
    d_start ← local (start_interp_dist st);
    d_end ← local (end_interp_dist st);
    z_start ← local (start_interp_z st);
    z_end ← local (end_interp_z st);
    new_z ← interpolate_z current_dist d_start d_end z_start z_end;
    Ok (append_new_z st new_z).

(** The vertex loop of [processAlgorithm] for one line: from the cumulated
    distances [dist] and the values [base_z_values], whose ends are valid,
    to [new_zs].  [end_interp_idx] starts at 0 and the other locals are
    unset, as they are for the first line. *)
Definition interpolate_missing_z (dist base_z_values : list float) (nodataz : float)
  : result (list float) :=
  st ← for_each (vertex_step dist base_z_values nodataz)
                (enumerate (zip dist base_z_values))
                (Locals 0 None None None None []);
  Ok (new_zs st).

(** ** The body of the feature loop *)

(** [l.count(x)]. *)
Definition py_count {A : Type} `{PyEq A} (x : A) (l : list A) : nat :=
  length (List.filter (λ e, py_eq e x) l).

(** [itertools.accumulate(l)]: the running sums of [l]; the first one is the
    first item itself. *)
Fixpoint accumulate_from (total : float) (rest : list float) : list float :=
  match rest with
  | [] => []
  | x :: rest' => (total + x)%F :: accumulate_from (total + x)%F rest'
  end.

Definition accumulate (l : list float) : list float :=
  match l with
  | [] => []
  | x :: rest => x :: accumulate_from x rest
  end.

(** [dist = [0] + list(itertools.accumulate(seg_lengths))].  The segment
    lengths are the square roots computed from the vertices of the line;
    they are taken as given. *)
Definition cumulated_dist (seg_lengths : list float) : list float :=
  zero :: accumulate seg_lengths.

(** The exceptions that can leave the body of the feature loop: those of the
    helpers and of the list accesses, the [TypeError] of unpacking the [None]
    returned by [fill_list_ends], and the two [QgsProcessingException] of the
    checks on the number of vertices. *)
Inductive line_exn : Set :=
  | PyExn (e : exn)
  | TypeError
  | FilledCountException
  | InterpolatedCountException.

Global Instance line_bind : MBind (sum line_exn) := λ A B k m,
  match m with
  | inr a => k a
  | inl e => inl e
  end.

Definition py {A : Type} (m : result A) : line_exn + A :=
  match m with
  | Ok a => inr a
  | Raise e => inl (PyExn e)
  end.

(** What the body of the feature loop does with one line: the feature is
    added to the sink as it is, with one of two notices, or a feature with
    the new Z values is added and the message gives the number of vertices
    filled at the ends (when the ends were filled), the number of missing
    values interpolated and the number of vertices. *)
Inductive line_outcome : Type :=
  | LeftUnchangedNoMissing
  | LeftUnchangedMissingOnly
  | Interpolated (no_filled_vertices : option Z) (count_missing_z count_vertices : nat)
                 (new_zs : list float).

(** [base_z_values[0] == nodataz or base_z_values[-1] == nodataz]. *)
Definition ends_missing (base_z_values : list float) (nodataz : float) : result bool :=
  x0 ← getitem base_z_values 0;
  if py_eq x0 nodataz then Ok true
  else xl ← getitem_last base_z_values; Ok (py_eq xl nodataz).

(** The filling of the ends in the feature loop, with its check. *)
Definition fill_checked (original_z_values : list float) (nodataz : float)
  : line_exn + (list float * Z) :=
  r ← py (fill_list_ends original_z_values nodataz);
  match r with
  | None => inl TypeError
  | Some (base_z_values, no_filled_vertices) =>
      if decide (length base_z_values ≠ length original_z_values)
      then inl FilledCountException
      else inr (base_z_values, no_filled_vertices)
  end.

(** The locals of the vertex loop when it starts on a line: [new_zs] and
    [end_interp_idx] are reset, the others keep the value that the lines
    processed before have left. *)
Definition reset_locals (previous : locals) : locals :=
  Locals 0 (start_interp_z previous) (start_interp_dist previous)
         (end_interp_z previous) (end_interp_dist previous) [].

(** The body of [for current, feature in enumerate(features)] after the
    test of cancellation, for a line with the Z values [original_z_values]
    and the segment lengths [seg_lengths]; [previous] holds the locals left
    by the lines before.  Returns the outcome and the locals it leaves. *)
Definition process_line (previous : locals) (original_z_values seg_lengths : list float)
    (nodataz : float) : line_exn + (line_outcome * locals) :=
  if negb (existsb (λ z, py_eq z nodataz) original_z_values)
  then inr (LeftUnchangedNoMissing, previous)
  else if forallb (λ z, py_eq z nodataz) original_z_values
  then inr (LeftUnchangedMissingOnly, previous)
  else
    ends ← py (ends_missing original_z_values nodataz);
    '(base_z_values, no_filled_vertices) ←
      (if ends : bool
       then '(base, n) ← fill_checked original_z_values nodataz; inr (base, Some n)
       else inr (original_z_values, None));
    let dist := cumulated_dist seg_lengths in
    st ← py (for_each (vertex_step dist base_z_values nodataz)
                      (enumerate (zip dist base_z_values))
                      (reset_locals previous));
    if decide (length (new_zs st) ≠ length base_z_values)
    then inl InterpolatedCountException
    else inr (Interpolated no_filled_vertices (py_count nodataz base_z_values)
                           (length base_z_values) (new_zs st), st).

(** A line feature, as far as the algorithm reads it: the Z values of its
    vertices and the lengths of its segments. *)
Record feature : Type := Feature {
  z_values : list float;
  seg_lengths_of : list float
}.

(** The Z values of the feature added to the sink: those of the feature
    itself, or those of the points built by
    [for pt, new_z in zip(line, new_zs)]. *)
Definition sink_z_values (f : feature) (out : line_outcome) : list float :=
  match out with
  | LeftUnchangedNoMissing | LeftUnchangedMissingOnly => z_values f
  | Interpolated _ _ _ new_zs => (zip (z_values f) new_zs).*2
  end.

(** The feature loop of [processAlgorithm]: [is_canceled current] is the
    answer of [feedback.isCanceled()] at iteration [current], [sink] the Z
    values of the features added so far.  An exception ends the algorithm. *)
Fixpoint process_features (is_canceled : nat → bool) (nodataz : float)
    (features : list (nat * feature)) (previous : locals) (sink : list (list float))
  : line_exn + list (list float) :=
  match features with
  | [] => inr sink
  | (current, f) :: features' =>
      if is_canceled current then inr sink
      else
        '(out, st) ← process_line previous (z_values f) (seg_lengths_of f) nodataz;
        process_features is_canceled nodataz features' st (sink ++ [sink_z_values f out])
  end.

(** The feature loop from its start: no local of the vertex loop is set and
    the sink is empty. *)
Definition processAlgorithm_loop (is_canceled : nat → bool) (nodataz : float)
    (features : list feature) : line_exn + list (list float) :=
  process_features is_canceled nodataz (enumerate features)
                   (Locals 0 None None None None []) [].

(** * Part 2: the vocabulary of the specification *)

(** An item is invalid when it compares equal to the invalid item, and valid
    otherwise. *)
Definition invalid {A : Type} `{PyEq A} (invalid_item x : A) : Prop :=
  py_eq x invalid_item = true.

Definition valid {A : Type} `{PyEq A} (invalid_item x : A) : Prop :=
  py_eq x invalid_item = false.

(** Item [i] exists and is valid, or invalid. *)
Definition valid_at {A : Type} `{PyEq A} (l : list A) (invalid_item : A) (i : nat)
  : Prop :=
  ∃ x, l !! i = Some x ∧ valid invalid_item x.

Definition invalid_at {A : Type} `{PyEq A} (l : list A) (invalid_item : A) (i : nat)
  : Prop :=
  ∃ x, l !! i = Some x ∧ invalid invalid_item x.

(** [f] is the index of the first valid item, [t] the index of the last. *)
Definition first_valid {A : Type} `{PyEq A} (l : list A) (invalid_item : A) (f : nat)
  : Prop :=
  valid_at l invalid_item f ∧ ∀ m, m < f → invalid_at l invalid_item m.

Definition last_valid {A : Type} `{PyEq A} (l : list A) (invalid_item : A) (t : nat)
  : Prop :=
  valid_at l invalid_item t ∧ ∀ m, t < m < length l → invalid_at l invalid_item m.

(** What one iteration of the filling loop leaves at index [i], where
    [cur] was there before. *)
Definition filled_item {A : Type} (l : list A) (f t : nat) (cur : option A) (i : nat)
  : option A :=
  if decide (t < i) then l !! t else if decide (i < f) then l !! f else cur.

(** [math.isfinite(x)]: neither an infinity nor NaN. *)
Definition is_finite (x : float) : bool :=
  match x with
  | S754_zero _ | S754_finite _ _ _ => true
  | S754_infinity _ | S754_nan => false
  end.

(** The anchors of index [i]: the nearest valid item at or before [i], and
    the nearest valid item after [i]. *)
Definition backward_anchor (values : list float) (sentinel : float) (i j : nat) : Prop :=
  j ≤ i ∧ valid_at values sentinel j
  ∧ ∀ m, j < m ≤ i → invalid_at values sentinel m.

Definition forward_anchor (values : list float) (sentinel : float) (i k : nat) : Prop :=
  i < k ∧ valid_at values sentinel k
  ∧ ∀ m, i < m < k → invalid_at values sentinel m.

(** The value of the linear interpolation between the two anchors, computed
    in floats in the order of the source. *)
Definition between (z_back z_fwd d_back d_fwd d : float) : float :=
  (z_back + (z_fwd - z_back) * (d - d_back) / (d_fwd - d_back))%F.

(** A float is a double when its mantissa and its exponent are those of a
    binary64 number; every Python float is one. *)
Definition is_double (x : float) : bool := valid_binary prec emax x.

Definition doubles (l : list float) : Prop := Forall (λ x, is_double x = true) l.

(** Index [i] is missing and the difference of the distances of its two
    anchors, the divisor of the interpolation, is a zero. *)
Definition zero_divisor_at (dist values : list float) (sentinel : float) (i : nat)
  : Prop :=
  invalid_at values sentinel i
  ∧ ∃ j k dj dk, backward_anchor values sentinel i j
                 ∧ forward_anchor values sentinel i k
                 ∧ dist !! j = Some dj ∧ dist !! k = Some dk
                 ∧ py_eq (dk - dj)%F zero = true.

(** No missing index has a zero divisor. *)
Definition no_zero_divisor (dist values : list float) (sentinel : float) : Prop :=
  ∀ i j k dj dk,
    invalid_at values sentinel i →
    backward_anchor values sentinel i j → forward_anchor values sentinel i k →
    dist !! j = Some dj → dist !! k = Some dk → py_eq (dk - dj)%F zero = false.

(** Index [i] is missing and its two anchors are at the same finite
    distance. *)
Definition degenerate_at (dist values : list float) (sentinel : float) (i : nat) : Prop :=
  invalid_at values sentinel i
  ∧ ∃ j k dj dk, backward_anchor values sentinel i j
                 ∧ forward_anchor values sentinel i k
                 ∧ dist !! j = Some dj ∧ dist !! k = Some dk
                 ∧ py_eq dk dj = true ∧ is_finite dj = true.

(** No missing index has its two anchors at the same finite distance. *)
Definition anchors_apart (dist values : list float) (sentinel : float) : Prop :=
  ∀ i, ¬ degenerate_at dist values sentinel i.

(** [o] is the expected output at index [i]: the input value when it is
    valid, the interpolation between the anchors of [i] otherwise. *)
Definition item_ok (dist values : list float) (sentinel : float) (i : nat) (o : float)
  : Prop :=
  ∃ v, values !! i = Some v
       ∧ if py_eq v sentinel then
           ∃ j k zj zk dj dk di,
             backward_anchor values sentinel i j
             ∧ forward_anchor values sentinel i k
             ∧ values !! j = Some zj ∧ values !! k = Some zk
             ∧ dist !! j = Some dj ∧ dist !! k = Some dk ∧ dist !! i = Some di
             ∧ py_eq (dk - dj)%F zero = false ∧ o = between zj zk dj dk di
         else o = v.

(** The invariant of the vertex loop before the iteration of index [i]:
    the values computed so far are the expected ones, the start of the
    interpolation is the backward anchor of [i - 1], and an end of
    interpolation that lies ahead is the first valid item from [i] on. *)
Record inv (dist values : list float) (nodataz : float) (i : nat) (st : locals)
  : Prop := Inv {
  inv_le : i ≤ length values;
  inv_len : length (new_zs st) = i;
  inv_items : ∀ m, m < i → ∃ o, new_zs st !! m = Some o ∧ item_ok dist values nodataz m o;
  inv_start : 0 < i →
    ∃ j zj dj, backward_anchor values nodataz (i - 1) j
               ∧ values !! j = Some zj ∧ dist !! j = Some dj
               ∧ start_interp_z st = Some zj ∧ start_interp_dist st = Some dj;
  inv_end : i < end_interp_idx st →
    (∀ m, i ≤ m < end_interp_idx st → invalid_at values nodataz m)
    ∧ ∃ zk dk, values !! end_interp_idx st = Some zk ∧ valid nodataz zk
               ∧ dist !! end_interp_idx st = Some dk
               ∧ end_interp_z st = Some zk ∧ end_interp_dist st = Some dk
}.

(** The end of interpolation, once set, is an index of the list. *)
Definition end_in_list (values : list float) (st : locals) : Prop :=
  end_interp_idx st ≤ length values - 1.

(** The segment lengths of a line are one less than its vertices. *)
Definition line_geometry (f : feature) : Prop :=
  length (seg_lengths_of f) = length (z_values f) - 1.

(** The Z values that the algorithm gives to a line processed alone, as the
    first line of a layer. *)
Definition line_alone (nodataz : float) (f : feature) : line_exn + list float :=
  '(out, _) ← process_line (Locals 0 None None None None [])
                           (z_values f) (seg_lengths_of f) nodataz;
  inr (sink_z_values f out).

Global Instance invalid_dec {A : Type} `{PyEq A} (invalid_item x : A) :
  Decision (invalid invalid_item x) := decide (py_eq x invalid_item = true).

Global Instance valid_dec {A : Type} `{PyEq A} (invalid_item x : A) :
  Decision (valid invalid_item x) := decide (py_eq x invalid_item = false).

(** * Part 3: properties of the program *)

(** ** Examples of the docstrings *)

Example fill_list_ends_doc1 :
  fill_list_ends [0; 0; 1; 0; 2; 0]%Z 0%Z = Ok (Some ([1; 1; 1; 0; 2; 2]%Z, 3%Z)).
Proof. reflexivity. Qed.

Example fill_list_ends_doc2 : fill_list_ends [0; 0; 0]%Z 0%Z = Ok None.
Proof. reflexivity. Qed.

Example fill_list_ends_doc3 :
  fill_list_ends [1; 1; 1]%Z 0%Z = Ok (Some ([1; 1; 1]%Z, 0%Z)).
Proof. reflexivity. Qed.

Example idx_first_last_valid_items_doc1 :
  idx_first_last_valid_items [0; 0; 1; 0; 2; 0]%Z 0%Z = Ok (2, 4).
Proof. reflexivity. Qed.

Example idx_first_last_valid_items_doc2 :
  idx_first_last_valid_items [1; 1; 1]%Z 0%Z = Ok (0, 2).
Proof. reflexivity. Qed.

Example interpolate_z_doc :
  interpolate_z (of_int 1) (of_int 0) (of_int 2) (of_int 0) (of_int 2) = Ok (of_int 1).
Proof. vm_compute. reflexivity. Qed.

(** The two floats interpolated in the example of separated runs,
    8.333333333333334 and 11.666666666666668: the first is the float nearest
    to 25/3, the second is the float that follows the one nearest to 35/3. *)
Example float_nearest_25_3 :
  (of_int 25 / of_int 3)%F = S754_finite false 4691249611844267 (-49).
Proof. vm_compute. reflexivity. Qed.

Example float_after_nearest_35_3 :
  SFsucc prec emax (of_int 35 / of_int 3)%F = S754_finite false 6567749456581974 (-49).
Proof. vm_compute. reflexivity. Qed.

(** The empty list has only invalid items for [all]. *)
Example fill_list_ends_empty : fill_list_ends ([] : list Z) 0%Z = Ok None.
Proof. reflexivity. Qed.

Lemma for_each_cons {S X : Type} (body : S → X → result S) x xs s :
  for_each body (x :: xs) s
  = match body s x with
    | Ok s' => for_each body xs s'
    | Raise e => Raise e
    end.
Proof. reflexivity. Qed.

Lemma length_enumerate_from {A : Type} (l : list A) :
  ∀ n, length (enumerate_from n l) = length l.
Proof. induction l as [|x l IH]; intros n; simpl; [reflexivity | f_equal; apply IH]. Qed.

(** ** The end filler *)

Section fill_facts.
Context {A : Type} `{PyEq A}.
Implicit Types (l out cur : list A) (invalid_item x : A) (i f t : nat) (c : Z).

Lemma valid_not_invalid invalid_item x :
  valid invalid_item x ↔ ¬ invalid invalid_item x.
Proof. unfold valid, invalid. destruct (py_eq x invalid_item); split; congruence. Qed.

Lemma valid_invalid invalid_item x :
  valid invalid_item x → invalid invalid_item x → False.
Proof. unfold valid, invalid. congruence. Qed.

Lemma py_ne_true x invalid_item : py_ne x invalid_item = true ↔ valid invalid_item x.
Proof. unfold py_ne, valid. apply negb_true_iff. Qed.

Lemma py_ne_false x invalid_item : py_ne x invalid_item = false ↔ invalid invalid_item x.
Proof. unfold py_ne, invalid. apply negb_false_iff. Qed.

Lemma all_invalid_iff l invalid_item :
  forallb (λ e, py_eq e invalid_item) l = true ↔ Forall (invalid invalid_item) l.
Proof.
  induction l as [|x l IH]; simpl.
  - split; [constructor | reflexivity].
  - rewrite andb_true_iff, Forall_cons, IH. reflexivity.
Qed.

Lemma contains_invalid_iff l invalid_item :
  existsb (λ e, py_eq e invalid_item) l = true ↔ Exists (invalid invalid_item) l.
Proof.
  induction l as [|x l IH]; simpl.
  - rewrite Exists_nil. split; [discriminate | tauto].
  - rewrite orb_true_iff, Exists_cons, IH. reflexivity.
Qed.

Lemma no_invalid_iff l invalid_item :
  existsb (λ e, py_eq e invalid_item) l = false ↔ Forall (valid invalid_item) l.
Proof.
  induction l as [|x l IH]; simpl.
  - split; [constructor | reflexivity].
  - rewrite orb_false_iff, Forall_cons, IH. reflexivity.
Qed.

Lemma valid_at_lt l invalid_item i : valid_at l invalid_item i → i < length l.
Proof. intros (x & Hx & _). eapply lookup_lt_Some, Hx. Qed.

Lemma invalid_at_lt l invalid_item i : invalid_at l invalid_item i → i < length l.
Proof. intros (x & Hx & _). eapply lookup_lt_Some, Hx. Qed.

Lemma valid_invalid_at l invalid_item i :
  valid_at l invalid_item i → invalid_at l invalid_item i → False.
Proof.
  intros (x & Hx & Hv) (y & Hy & Hi). assert (y = x) as -> by congruence.
  exact (valid_invalid _ _ Hv Hi).
Qed.

Lemma valid_or_invalid_at l invalid_item i :
  i < length l → valid_at l invalid_item i ∨ invalid_at l invalid_item i.
Proof.
  intros Hi. destruct (lookup_lt_is_Some_2 l i Hi) as [x Hx].
  destruct (py_eq x invalid_item) eqn:Hc; [right | left]; exists x; auto.
Qed.

Lemma Forall_invalid_at l invalid_item :
  Forall (invalid invalid_item) l ↔ ∀ i, i < length l → invalid_at l invalid_item i.
Proof.
  rewrite Forall_lookup. split.
  - intros Hall i Hi. destruct (lookup_lt_is_Some_2 l i Hi) as [x Hx].
    exists x. split; [exact Hx | apply (Hall i x Hx)].
  - intros Hall i x Hx. destruct (Hall i) as (y & Hy & Hinv); [eapply lookup_lt_Some, Hx|].
    congruence.
Qed.

Lemma Forall_valid_at l invalid_item :
  Forall (valid invalid_item) l ↔ ∀ i, i < length l → valid_at l invalid_item i.
Proof.
  rewrite Forall_lookup. split.
  - intros Hall i Hi. destruct (lookup_lt_is_Some_2 l i Hi) as [x Hx].
    exists x. split; [exact Hx | apply (Hall i x Hx)].
  - intros Hall i x Hx. destruct (Hall i) as (y & Hy & Hinv); [eapply lookup_lt_Some, Hx|].
    congruence.
Qed.

Lemma not_all_invalid l invalid_item :
  ¬ Forall (invalid invalid_item) l ↔ ∃ i, valid_at l invalid_item i.
Proof.
  split.
  - intros Hn. apply not_Forall_Exists in Hn; [|intros ?; apply _].
    apply Exists_exists in Hn as (x & Hin & Hx).
    apply list_elem_of_lookup in Hin as (i & Hi). exists i, x.
    split; [exact Hi | apply valid_not_invalid, Hx].
  - intros (i & x & Hi & Hx) Hall.
    rewrite Forall_lookup in Hall. exact (valid_invalid _ _ Hx (Hall i x Hi)).
Qed.

Lemma first_valid_unique l invalid_item f f' :
  first_valid l invalid_item f → first_valid l invalid_item f' → f = f'.
Proof.
  intros [Hv Hb] [Hv' Hb'].
  destruct (lt_eq_lt_dec f f') as [[Hlt | ->] | Hlt]; [|reflexivity|]; exfalso.
  - exact (valid_invalid_at _ _ _ Hv (Hb' _ Hlt)).
  - exact (valid_invalid_at _ _ _ Hv' (Hb _ Hlt)).
Qed.

Lemma last_valid_unique l invalid_item t t' :
  last_valid l invalid_item t → last_valid l invalid_item t' → t = t'.
Proof.
  intros [Hv Ha] [Hv' Ha'].
  pose proof (valid_at_lt _ _ _ Hv) as Hlt. pose proof (valid_at_lt _ _ _ Hv') as Hlt'.
  destruct (lt_eq_lt_dec t t') as [[Hc | ->] | Hc]; [|reflexivity|]; exfalso.
  - exact (valid_invalid_at _ _ _ Hv' (Ha t' (conj Hc Hlt'))).
  - exact (valid_invalid_at _ _ _ Hv (Ha' t (conj Hc Hlt))).
Qed.

Lemma first_le_last l invalid_item f t :
  first_valid l invalid_item f → last_valid l invalid_item t → f ≤ t.
Proof.
  intros [_ Hb] [Hv _].
  destruct (le_lt_dec f t) as [Hle | Hlt]; [exact Hle|].
  exfalso. exact (valid_invalid_at _ _ _ Hv (Hb _ Hlt)).
Qed.

(** The scanning loop finds the first valid item of the enumerated list. *)
Lemma first_valid_idx_enumerate_from invalid_item l n :
  match first_valid_idx invalid_item (enumerate_from n l) with
  | Some idx => ∃ k, idx = n + k ∧ first_valid l invalid_item k
  | None => Forall (invalid invalid_item) l
  end.
Proof.
  revert n. induction l as [|x l IH]; intros n; simpl.
  - constructor.
  - destruct (py_eq x invalid_item) eqn:Hx.
    + specialize (IH (S n)).
      destruct (first_valid_idx invalid_item (enumerate_from (S n) l)) as [idx|].
      * destruct IH as (k & -> & Hk & Hb).
        exists (S k). split; [lia|]. split; [exact Hk|].
        intros [|m] Hm; [exists x; split; [reflexivity | exact Hx] | apply Hb; lia].
      * constructor; [exact Hx | exact IH].
    + exists 0. split; [lia|]. split.
      * exists x. split; [reflexivity | exact Hx].
      * intros m Hm. lia.
Qed.

Lemma first_valid_reverse l invalid_item k :
  first_valid (reverse l) invalid_item k →
  last_valid l invalid_item (length l - k - 1).
Proof.
  intros [Hv Hb]. pose proof (valid_at_lt _ _ _ Hv) as Hk.
  rewrite length_reverse in Hk. destruct Hv as (x & Hx & Hnx).
  rewrite reverse_lookup in Hx by exact Hk.
  replace (length l - k - 1) with (length l - S k) by lia.
  split; [exists x; auto|].
  intros m Hm. destruct (Hb (length l - S m)) as (y & Hy & Hyi); [lia|].
  rewrite reverse_lookup in Hy by lia.
  replace (length l - S (length l - S m)) with m in Hy by lia.
  exists y. auto.
Qed.

Lemma idx_first_last_valid_items_spec l invalid_item :
  (∃ i, valid_at l invalid_item i) →
  ∃ f t, idx_first_last_valid_items l invalid_item = Ok (f, t)
         ∧ first_valid l invalid_item f ∧ last_valid l invalid_item t.
Proof.
  intros Hex. assert (Hnall : ¬ Forall (invalid invalid_item) l)
    by (apply not_all_invalid; exact Hex).
  destruct Hex as (i & Hi). pose proof (valid_at_lt _ _ _ Hi) as Hlen.
  destruct (lookup_lt_is_Some_2 l 0) as [x0 Hx0]; [lia|].
  assert (Hlast : is_Some (last l)).
  { apply last_is_Some. intros ->. simpl in Hlen. lia. }
  destruct Hlast as [xl Hxl].
  assert (Hf : ∃ f, (if py_ne x0 invalid_item then Some 0
                     else first_valid_idx invalid_item (enumerate l)) = Some f
                    ∧ first_valid l invalid_item f).
  { destruct (py_ne x0 invalid_item) eqn:Hne.
    - apply py_ne_true in Hne. exists 0. split; [reflexivity|]. split.
      + exists x0. auto.
      + intros m Hm. lia.
    - pose proof (first_valid_idx_enumerate_from invalid_item l 0) as Hscan.
      unfold enumerate.
      destruct (first_valid_idx invalid_item (enumerate_from 0 l)) as [idx|];
        [|contradiction].
      destruct Hscan as (k & -> & Hk). exists k. auto. }
  assert (Ht : ∃ t, (if py_ne xl invalid_item then Some (length l - 1)
                     else (λ idx, length l - idx - 1)
                            <$> first_valid_idx invalid_item (enumerate (reverse l)))
                    = Some t
                    ∧ last_valid l invalid_item t).
  { destruct (py_ne xl invalid_item) eqn:Hne.
    - apply py_ne_true in Hne. exists (length l - 1). split; [reflexivity|]. split.
      + exists xl. split; [|exact Hne].
        rewrite last_lookup in Hxl. rewrite <- Hxl. f_equal. lia.
      + intros m Hm. lia.
    - pose proof (first_valid_idx_enumerate_from invalid_item (reverse l) 0) as Hscan.
      unfold enumerate.
      destruct (first_valid_idx invalid_item (enumerate_from 0 (reverse l))) as [idx|].
      + destruct Hscan as (k & -> & Hk). exists (length l - k - 1).
        split; [reflexivity|]. apply first_valid_reverse, Hk.
      + exfalso. apply Hnall. apply Forall_reverse. exact Hscan. }
  destruct Hf as (f & Hf & Hfv), Ht as (t & Ht & Htv).
  exists f, t. split; [|auto].
  unfold idx_first_last_valid_items, getitem, getitem_last.
  rewrite Hx0, Hxl. simpl. rewrite Hf, Ht. reflexivity.
Qed.

Lemma fill_step_spec l f t cur a :
  f < length l → t < length l → a < length cur →
  ∃ cur', fill_step l f t cur a = Ok cur'
          ∧ length cur' = length cur
          ∧ (∀ i, i ≠ a → cur' !! i = cur !! i)
          ∧ cur' !! a = filled_item l f t (cur !! a) a.
Proof.
  intros Hf Ht Ha.
  destruct (lookup_lt_is_Some_2 l f Hf) as [xf Hxf].
  destruct (lookup_lt_is_Some_2 l t Ht) as [xt Hxt].
  unfold fill_step, filled_item, getitem, setitem. rewrite Hxf, Hxt.
  destruct (decide (a < f)) as [Haf|Haf]; simpl.
  - rewrite decide_True by exact Ha. simpl.
    destruct (decide (t < a)) as [Hta|Hta]; simpl.
    + rewrite decide_True by (rewrite length_insert; exact Ha). simpl.
      eexists. split; [reflexivity|]. rewrite !length_insert.
      split; [reflexivity|]. split.
      * intros i Hi. rewrite !list_lookup_insert_ne by congruence. reflexivity.
      * apply list_lookup_insert_eq. rewrite length_insert. exact Ha.
    + eexists. split; [reflexivity|]. rewrite length_insert.
      split; [reflexivity|]. split.
      * intros i Hi. rewrite list_lookup_insert_ne by congruence. reflexivity.
      * apply list_lookup_insert_eq. exact Ha.
  - destruct (decide (t < a)) as [Hta|Hta]; simpl.
    + rewrite decide_True by exact Ha. simpl.
      eexists. split; [reflexivity|]. rewrite length_insert.
      split; [reflexivity|]. split.
      * intros i Hi. rewrite list_lookup_insert_ne by congruence. reflexivity.
      * apply list_lookup_insert_eq. exact Ha.
    + eexists. split; [reflexivity|]. auto.
Qed.

Lemma fill_loop_spec l f t :
  f < length l → t < length l →
  ∀ b a cur, length cur = length l → a + b ≤ length l →
  ∃ out, for_each (fill_step l f t) (seq a b) cur = Ok out
         ∧ length out = length l
         ∧ ∀ i, out !! i = if decide (a ≤ i < a + b)
                           then filled_item l f t (cur !! i) i
                           else cur !! i.
Proof.
  intros Hf Ht. induction b as [|b IH]; intros a cur Hlen Hab; simpl.
  - exists cur. split; [reflexivity|]. split; [exact Hlen|].
    intros i. rewrite decide_False by lia. reflexivity.
  - destruct (fill_step_spec l f t cur a Hf Ht) as (cur' & Hstep & Hlen' & Hne & Heq);
      [lia|].
    rewrite Hstep. simpl.
    destruct (IH (S a) cur') as (out & Hrun & Hout & Hitems); [congruence | lia |].
    exists out. split; [exact Hrun|]. split; [exact Hout|].
    intros i. rewrite Hitems.
    destruct (decide (i = a)) as [->|Hia].
    + rewrite decide_False by lia. rewrite decide_True by lia. exact Heq.
    + rewrite (Hne i Hia).
      destruct (decide (S a ≤ i < S a + b)).
      * rewrite decide_True by lia. reflexivity.
      * rewrite decide_False by lia. reflexivity.
Qed.

(** The specification of [fill_list_ends] on a list with a valid item: the
    items before the first valid one take its value, the items after the
    last valid one take its value, the other items are kept. *)
Lemma fill_list_ends_spec l invalid_item :
  (∃ i, valid_at l invalid_item i) →
  ∃ f t out,
    first_valid l invalid_item f ∧ last_valid l invalid_item t
    ∧ fill_list_ends l invalid_item
      = Ok (Some (out, (Z.of_nat (length l) - Z.of_nat t - 1 + Z.of_nat f)%Z))
    ∧ length out = length l
    ∧ ∀ i, i < length l →
           out !! i = if decide (i < f) then l !! f
                      else if decide (t < i) then l !! t else l !! i.
Proof.
  intros Hex. unfold fill_list_ends.
  destruct (forallb (λ e, py_eq e invalid_item) l) eqn:Hall.
  { apply all_invalid_iff in Hall. apply not_all_invalid in Hex. contradiction. }
  destruct (existsb (λ e, py_eq e invalid_item) l) eqn:Hin; simpl.
  - destruct (idx_first_last_valid_items_spec l invalid_item Hex)
      as (f & t & Hidx & Hfv & Htv).
    rewrite Hidx. simpl.
    pose proof (valid_at_lt _ _ _ (proj1 Hfv)) as Hf.
    pose proof (valid_at_lt _ _ _ (proj1 Htv)) as Ht.
    pose proof (first_le_last _ _ _ _ Hfv Htv) as Hft.
    destruct (fill_loop_spec l f t Hf Ht (length l) 0 l eq_refl)
      as (out & Hrun & Hlen & Hitems); [lia|].
    rewrite Hrun. simpl. exists f, t, out. repeat split; try apply Hfv; try apply Htv; auto.
    intros i Hi. rewrite Hitems. unfold filled_item.
    rewrite decide_True by lia.
    destruct (decide (t < i)); [rewrite decide_False by lia|]; reflexivity.
  - apply no_invalid_iff in Hin. rewrite Forall_valid_at in Hin.
    destruct Hex as (i0 & Hi0). pose proof (valid_at_lt _ _ _ Hi0) as Hlen.
    exists 0, (length l - 1), l. split; [|split; [|split; [|split]]].
    + split; [apply Hin; lia | intros m Hm; lia].
    + split; [apply Hin; lia | intros m Hm; lia].
    + do 3 f_equal. lia.
    + reflexivity.
    + intros i Hi. rewrite decide_False by lia.
      rewrite decide_False by lia. reflexivity.
Qed.

(** A successful call determines its result. *)
Lemma fill_list_ends_Some_inv l invalid_item out c :
  fill_list_ends l invalid_item = Ok (Some (out, c)) →
  ∃ f t, first_valid l invalid_item f ∧ last_valid l invalid_item t
         ∧ c = (Z.of_nat (length l) - Z.of_nat t - 1 + Z.of_nat f)%Z
         ∧ length out = length l
         ∧ ∀ i, i < length l →
                out !! i = if decide (i < f) then l !! f
                           else if decide (t < i) then l !! t else l !! i.
Proof.
  intros Hrun.
  assert (Hex : ∃ i, valid_at l invalid_item i).
  { apply not_all_invalid. intros Hall. apply all_invalid_iff in Hall.
    unfold fill_list_ends in Hrun. rewrite Hall in Hrun. discriminate. }
  destruct (fill_list_ends_spec l invalid_item Hex)
    as (f & t & out' & Hf & Ht & Hrun' & Hlen & Hitems).
  rewrite Hrun in Hrun'. injection Hrun' as -> ->.
  exists f, t. auto.
Qed.

Lemma all_invalid_None l invalid_item :
  Forall (invalid invalid_item) l → fill_list_ends l invalid_item = Ok None.
Proof.
  intros Hall. apply all_invalid_iff in Hall.
  unfold fill_list_ends. rewrite Hall. reflexivity.
Qed.

(** Both ends of a filled list are valid. *)
Lemma filled_ends_valid l invalid_item out c :
  fill_list_ends l invalid_item = Ok (Some (out, c)) →
  valid_at out invalid_item 0 ∧ valid_at out invalid_item (length l - 1).
Proof.
  intros Hrun.
  destruct (fill_list_ends_Some_inv _ _ _ _ Hrun)
    as (f & t & Hf & Ht & _ & Hlen & Hitems).
  pose proof (first_le_last _ _ _ _ Hf Ht) as Hft.
  pose proof (valid_at_lt _ _ _ (proj1 Ht)) as Htl.
  destruct Hf as [(xf & Hxf & Hnf) _], Ht as [(xt & Hxt & Hnt) _].
  split.
  - exists xf. split; [|exact Hnf]. rewrite Hitems by lia.
    destruct (decide (0 < f)); [exact Hxf|].
    rewrite decide_False by lia. replace 0 with f by lia. exact Hxf.
  - exists xt. split; [|exact Hnt]. rewrite Hitems by lia.
    rewrite decide_False by lia.
    destruct (decide (t < length l - 1)); [exact Hxt|].
    replace (length l - 1) with t by lia. exact Hxt.
Qed.




(** A list with valid ends is returned as it is. *)
Lemma fill_list_ends_valid_ends l invalid_item :
  valid_at l invalid_item 0 → valid_at l invalid_item (length l - 1) →
  fill_list_ends l invalid_item = Ok (Some (l, 0%Z)).
Proof.
  intros H0 Hl. pose proof (valid_at_lt _ _ _ H0) as Hpos.
  destruct (fill_list_ends_spec l invalid_item)
    as (f & t & out & Hf & Ht & Hrun & Hlen & Hitems); [exists 0; exact H0|].
  assert (f = 0) as ->.
  { apply (first_valid_unique l invalid_item); [exact Hf|].
    split; [exact H0 | intros m Hm; lia]. }
  assert (t = length l - 1) as ->.
  { apply (last_valid_unique l invalid_item); [exact Ht|].
    split; [exact Hl | intros m Hm; lia]. }
  rewrite Hrun. do 3 f_equal; [|lia].
  apply list_eq. intros i. destruct (decide (i < length l)) as [Hi|Hi].
  - rewrite Hitems by exact Hi. rewrite decide_False by lia.
    rewrite decide_False by lia. reflexivity.
  - rewrite !(proj2 (lookup_ge_None _ _)) by lia. reflexivity.
Qed.

Lemma py_count_app x l1 l2 : py_count x (l1 ++ l2) = py_count x l1 + py_count x l2.
Proof. unfold py_count. rewrite List.filter_app, length_app. reflexivity. Qed.

Lemma py_count_all x l : Forall (invalid x) l → py_count x l = length l.
Proof.
  unfold py_count. induction 1 as [|y l Hy _ IH]; [reflexivity|].
  simpl. unfold invalid in Hy. rewrite Hy. simpl. f_equal. exact IH.
Qed.

Lemma py_count_none x l : Forall (valid x) l → py_count x l = 0.
Proof.
  unfold py_count. induction 1 as [|y l Hy _ IH]; [reflexivity|].
  simpl. unfold valid in Hy. rewrite Hy. exact IH.
Qed.

(** A list splits at two positions. *)
Lemma take_mid_drop l a b :
  a ≤ b → l = take a l ++ drop a (take b l) ++ drop b l.
Proof.
  intros Hab. rewrite drop_take_drop by exact Hab. symmetry. apply take_drop.
Qed.

(** The filled items are those that were invalid at the two ends: the number
    of invalid items decreases by the number of filled items. *)
Lemma fill_list_ends_count l invalid_item out c :
  fill_list_ends l invalid_item = Ok (Some (out, c)) →
  (Z.of_nat (py_count invalid_item out) + c
   = Z.of_nat (py_count invalid_item l))%Z.
Proof.
  intros Hrun.
  destruct (fill_list_ends_Some_inv _ _ _ _ Hrun)
    as (f & t & Hf & Ht & -> & Hlen & Hitems).
  pose proof (first_le_last _ _ _ _ Hf Ht) as Hft.
  pose proof (valid_at_lt _ _ _ (proj1 Ht)) as Htl.
  destruct Hf as [(xf & Hxf & Hnf) Hbefore], Ht as [(xt & Hxt & Hnt) Hafter].
  rewrite (take_mid_drop l f (S t)) at 2 by lia.
  rewrite (take_mid_drop out f (S t)) at 1 by lia.
  rewrite !py_count_app.
  assert (Hmid : drop f (take (S t) out) = drop f (take (S t) l)).
  { apply list_eq. intros i. rewrite !lookup_drop, !lookup_take.
    destruct (decide (f + i < S t)); [|reflexivity].
    rewrite Hitems by lia. rewrite decide_False by lia.
    rewrite decide_False by lia. reflexivity. }
  rewrite Hmid.
  rewrite (py_count_all invalid_item (take f l)).
  2:{ apply Forall_lookup. intros i x [Hx Hi]%lookup_take_Some.
      destruct (Hbefore i Hi) as (y & Hy & Hyi). congruence. }
  rewrite (py_count_all invalid_item (drop (S t) l)).
  2:{ apply Forall_lookup. intros i x Hx. rewrite lookup_drop in Hx.
      pose proof (lookup_lt_Some _ _ _ Hx).
      destruct (Hafter (S t + i)) as (y & Hy & Hyi); [lia|]. congruence. }
  rewrite (py_count_none invalid_item (take f out)).
  2:{ apply Forall_lookup. intros i x [Hx Hi]%lookup_take_Some.
      rewrite Hitems in Hx by lia. rewrite decide_True in Hx by exact Hi. congruence. }
  rewrite (py_count_none invalid_item (drop (S t) out)).
  2:{ apply Forall_lookup. intros i x Hx. rewrite lookup_drop in Hx.
      pose proof (lookup_lt_Some _ _ _ Hx) as Hi. rewrite Hlen in Hi.
      rewrite Hitems in Hx by exact Hi. rewrite decide_False in Hx by lia.
      rewrite decide_True in Hx by lia. congruence. }
  rewrite length_take, length_drop. lia.
Qed.

(** Every item of a filled list is an item of the input, and the valid
    items of the input keep their place. *)
Lemma filled_elem_of l out invalid_item c :
  fill_list_ends l invalid_item = Ok (Some (out, c)) →
  ∀ x, x ∈ out → x ∈ l.
Proof.
  intros Hrun x Hin.
  destruct (fill_list_ends_Some_inv _ _ _ _ Hrun) as (f & t & _ & _ & _ & Hlen & Hitems).
  apply list_elem_of_lookup_1 in Hin as (i & Hi).
  pose proof (lookup_lt_Some _ _ _ Hi) as Hlt. rewrite Hlen in Hlt.
  rewrite Hitems in Hi by exact Hlt.
  destruct (decide (i < f)); [|destruct (decide (t < i))];
    eapply list_elem_of_lookup_2, Hi.
Qed.

Lemma filled_keeps_valid l out invalid_item c :
  fill_list_ends l invalid_item = Ok (Some (out, c)) →
  ∀ i v, l !! i = Some v → valid invalid_item v → out !! i = Some v.
Proof.
  intros Hrun i v Hv Hne.
  destruct (fill_list_ends_Some_inv _ _ _ _ Hrun)
    as (f & t & [_ Hbefore] & [_ Hafter] & _ & Hlen & Hitems).
  pose proof (lookup_lt_Some _ _ _ Hv) as Hi.
  rewrite Hitems by exact Hi.
  destruct (decide (i < f)) as [Hif|Hif].
  { exfalso. apply (valid_invalid_at l invalid_item i); [exists v; auto | auto]. }
  destruct (decide (t < i)) as [Hti|Hti]; [|exact Hv].
  exfalso. apply (valid_invalid_at l invalid_item i); [exists v; auto|].
  apply Hafter. lia.
Qed.
End fill_facts.

(** ** Items compared by equality *)

Section eq_facts.
Context {A : Type} `{EqDecision A}.
Implicit Types (l : list A) (invalid_item x y : A).

Lemma py_eq_true x y : py_eq x y = true ↔ x = y.
Proof. unfold py_eq, eq_dec_py_eq. apply bool_decide_eq_true. Qed.


Lemma invalid_eq invalid_item x : invalid invalid_item x ↔ x = invalid_item.
Proof. apply py_eq_true. Qed.





Lemma invalid_at_eq l invalid_item i :
  invalid_at l invalid_item i ↔ l !! i = Some invalid_item.
Proof.
  split.
  - intros (x & Hx & Hi). apply invalid_eq in Hi. congruence.
  - intros Hi. exists invalid_item. split; [exact Hi | apply invalid_eq; reflexivity].
Qed.
End eq_facts.

(** ** Floats *)

(** [x == 0.0] holds for the two zeros only. *)
Lemma py_eq_zero (x : float) : py_eq x zero = true ↔ ∃ s, x = S754_zero s.
Proof.
  destruct x as [s|s| |s m e]; try destruct s; (split; [try discriminate; eauto |]);
    try reflexivity; intros [? [=]].
Qed.

(** Two finite floats that compare equal are two zeros or the same float. *)
Lemma py_eq_finite_inv (x y : float) :
  py_eq x y = true → is_finite x = true →
  (∃ s s', x = S754_zero s ∧ y = S754_zero s') ∨ (∃ s m e, x = S754_finite s m e ∧ y = x).
Proof.
  intros Heq Hfin.
  destruct x as [s|s| |s m e], y as [s'|s'| |s' m' e']; try discriminate Hfin;
    try discriminate Heq; try (destruct s; discriminate Heq);
    try (destruct s'; discriminate Heq).
  - left. eauto.
  - right. exists s, m, e. split; [reflexivity|].
    unfold py_eq, float_py_eq, SFeqb, SFcompare in Heq.
    destruct s, s'; try discriminate Heq;
      destruct (Z.compare e e') eqn:He; try discriminate Heq;
      apply Z.compare_eq in He; subst e';
      fold (Pos.compare m m') in Heq;
      destruct (Pos.compare m m') eqn:Hm; try discriminate Heq;
      apply Pos.compare_eq in Hm; subst m'; reflexivity.
Qed.

(** Floats that compare equal are both finite or both infinite. *)
Lemma py_eq_is_finite (x y : float) : py_eq x y = true → is_finite x = is_finite y.
Proof.
  intros Heq.
  destruct x as [s|s| |s m e], y as [s'|s'| |s' m' e']; try reflexivity;
    try discriminate Heq; try (destruct s; discriminate Heq);
    destruct s'; discriminate Heq.
Qed.

(** A finite float minus itself is zero. *)
Lemma fsub_same_finite s m e : (S754_finite s m e - S754_finite s m e)%F = zero.
Proof.
  unfold fsub, SFsub. rewrite Z.min_id. unfold shl_align.
  rewrite Z.sub_diag. reflexivity.
Qed.

(** The difference of two finite floats that compare equal is a zero: the
    division by it raises. *)
Lemma fsub_equal_finite (x y : float) :
  py_eq x y = true → is_finite x = true → py_eq (x - y)%F zero = true.
Proof.
  intros Heq Hfin.
  destruct (py_eq_finite_inv x y Heq Hfin)
    as [(s & s' & -> & ->)|(s & m & e & -> & ->)].
  - destruct s, s'; reflexivity.
  - rewrite fsub_same_finite. reflexivity.
Qed.

(** A difference with an infinity or NaN is never a zero. *)
Lemma fsub_not_finite_l (x y : float) :
  is_finite x = false → py_eq (x - y)%F zero = false.
Proof.
  intros Hx.
  destruct x as [s|s| |s m e], y as [s'|s'| |s' m' e']; try discriminate Hx;
    try reflexivity; destruct s, s'; reflexivity.
Qed.

Lemma fsub_not_finite_r (x y : float) :
  is_finite y = false → py_eq (x - y)%F zero = false.
Proof.
  intros Hy.
  destruct x as [s|s| |s m e], y as [s'|s'| |s' m' e']; try discriminate Hy;
    try reflexivity; destruct s, s'; reflexivity.
Qed.

(** The difference of two infinities that compare equal is NaN. *)
Lemma fsub_equal_not_finite (x y : float) :
  py_eq x y = true → is_finite x = false → (x - y)%F = nan.
Proof.
  intros Heq Hx.
  destruct x as [s|s| |s m e], y as [s'|s'| |s' m' e']; try discriminate Hx;
    try discriminate Heq; try (destruct s; discriminate Heq);
    destruct s, s'; try discriminate Heq; reflexivity.
Qed.

(** NaN goes through the operations. *)
Lemma fdiv_nan_r (x : float) : (x / nan)%F = nan.
Proof. destruct x; reflexivity. Qed.

Lemma fadd_nan_r (x : float) : (x + nan)%F = nan.
Proof. destruct x; reflexivity. Qed.

(** A finite difference has finite operands. *)
Lemma is_finite_fsub (x y : float) :
  is_finite (x - y)%F = true → is_finite x = true ∧ is_finite y = true.
Proof.
  destruct x as [s|s| |s m e], y as [s'|s'| |s' m' e']; simpl; auto;
    try discriminate; destruct s, s'; discriminate.
Qed.

(** A finite float equals itself. *)
Lemma py_eq_refl_finite (x : float) : is_finite x = true → py_eq x x = true.
Proof.
  destruct x as [s|s| |s m e]; try discriminate; intros _; [reflexivity|].
  unfold py_eq, float_py_eq, SFeqb, SFcompare.
  destruct s; rewrite Z.compare_refl; fold (Pos.compare m m);
    rewrite Pos.compare_refl; reflexivity.
Qed.

(** At [d_start] the interpolation gives a float equal to [z_start], when
    the difference of the two values does not overflow and the divisor is
    neither a zero nor NaN. *)
Lemma between_start (z_start z_end d_start d_end : float) :
  is_finite d_start = true →
  is_finite (z_end - z_start)%F = true →
  py_eq (d_end - d_start)%F zero = false →
  (d_end - d_start)%F ≠ nan →
  py_eq (between z_start z_end d_start d_end d_start) z_start = true.
Proof.
  intros Hd Hz Hne Hnan. unfold between.
  assert (Hzero : (d_start - d_start)%F = zero).
  { destruct d_start as [s|s| |s m e]; try discriminate Hd.
    - destruct s; reflexivity.
    - apply fsub_same_finite. }
  rewrite Hzero.
  pose proof (is_finite_fsub _ _ Hz) as [_ Hzs].
  assert (Hq : ∃ s, ((z_end - z_start) * zero / (d_end - d_start))%F = S754_zero s).
  { destruct (z_end - z_start)%F as [sz|sz| |sz mz ez]; try discriminate Hz;
      destruct (d_end - d_start)%F as [sd|sd| |sd md ed];
      try discriminate Hne; try (exfalso; apply Hnan; reflexivity);
      unfold fmul, fdiv, zero; simpl; eauto. }
  destruct Hq as [sq ->].
  destruct z_start as [s|s| |s m e]; try discriminate Hzs.
  - destruct s, sq; reflexivity.
  - apply (py_eq_refl_finite (S754_finite s m e)). reflexivity.
Qed.

(** ** The difference of two doubles *)

(** The number of binary digits of a mantissa. *)
Lemma digits2_pos_size (m : positive) : digits2_pos m = Pos.size m.
Proof. induction m as [m IH|m IH|]; simpl; congruence. Qed.

Lemma digits2_pos_bounds (m : positive) :
  (2 ^ (Z.pos (digits2_pos m) - 1) ≤ Z.pos m < 2 ^ Z.pos (digits2_pos m))%Z.
Proof.
  rewrite digits2_pos_size.
  pose proof (Pos.size_gt m) as Hgt. pose proof (Pos.size_le m) as Hle.
  apply Pos2Z.pos_lt_pos in Hgt. apply Pos2Z.pos_le_pos in Hle.
  rewrite Pos2Z.inj_pow in Hgt, Hle.
  change (Z.pos m~0) with (2 * Z.pos m)%Z in Hle.
  replace (Z.pos (Pos.size m)) with (Z.pos (Pos.size m) - 1 + 1)%Z in Hle at 1 by lia.
  rewrite Z.pow_add_r in Hle by lia. change (2 ^ 1)%Z with 2%Z in Hle.
  split; [lia | exact Hgt].
Qed.

(** One shift to the right halves the mantissa. *)
Lemma shr_1_m (mrs : shr_record) :
  (0 ≤ shr_m mrs)%Z → shr_m (shr_1 mrs) = (shr_m mrs / 2)%Z.
Proof.
  destruct mrs as [m r s]. cbn [shr_m shr_1]. intros Hm.
  destruct m as [|[p|p|]|p]; cbn [shr_m]; try lia.
  - reflexivity.
  - apply Z.div_unique with (r := 1%Z); lia.
  - apply Z.div_unique with (r := 0%Z); lia.
  - reflexivity.
Qed.

Lemma iter_shr_1_m (p : positive) :
  ∀ mrs, (0 ≤ shr_m mrs)%Z →
         shr_m (SpecFloat.iter_pos shr_1 p mrs) = (shr_m mrs / 2 ^ Z.pos p)%Z.
Proof.
  induction p as [p IH|p IH|]; intros mrs Hm; simpl.
  - assert (H1 : (0 ≤ shr_m (shr_1 mrs))%Z).
    { rewrite shr_1_m by exact Hm. apply Z.div_pos; lia. }
    assert (H2 : (0 ≤ shr_m (SpecFloat.iter_pos shr_1 p (shr_1 mrs)))%Z).
    { rewrite IH by exact H1. apply Z.div_pos; [exact H1 | lia]. }
    rewrite IH by exact H2. rewrite IH by exact H1. rewrite shr_1_m by exact Hm.
    rewrite !Z.div_div by lia. f_equal.
    rewrite Pos2Z.inj_xI. rewrite Z.pow_add_r, Z.pow_mul_r by lia.
    change (2 ^ 2)%Z with 4%Z. change (2 ^ 1)%Z with 2%Z.
    replace (4 ^ Z.pos p)%Z with (2 ^ Z.pos p * 2 ^ Z.pos p)%Z.
    + ring.
    + rewrite <- Z.pow_add_r by lia. replace (Z.pos p + Z.pos p)%Z with (2 * Z.pos p)%Z by lia.
      rewrite Z.pow_mul_r by lia. reflexivity.
  - assert (H1 : (0 ≤ shr_m (SpecFloat.iter_pos shr_1 p mrs))%Z).
    { rewrite IH by exact Hm. apply Z.div_pos; [exact Hm | lia]. }
    rewrite IH by exact H1. rewrite IH by exact Hm.
    rewrite Z.div_div by lia. f_equal.
    rewrite Pos2Z.inj_xO. rewrite <- Z.pow_add_r by lia. f_equal. lia.
  - rewrite shr_1_m by exact Hm. reflexivity.
Qed.

Lemma shr_m_of_loc (m : Z) (l : location) : shr_m (shr_record_of_loc m l) = m.
Proof. destruct l as [|[]]; reflexivity. Qed.

Lemma emin_le_fexp (e : Z) : (emin prec emax ≤ fexp prec emax e)%Z.
Proof. unfold fexp. lia. Qed.

(** The rounding shift keeps a positive mantissa positive, when the exponent
    is not below the smallest one. *)
Lemma shr_fexp_pos (m e : Z) (l : location) :
  (0 < m)%Z → (emin prec emax ≤ e)%Z →
  (0 < shr_m (shr_fexp prec emax m e l).1)%Z
  ∧ (emin prec emax ≤ (shr_fexp prec emax m e l).2)%Z.
Proof.
  intros Hm He. unfold shr_fexp, shr.
  destruct m as [|m|m]; try lia. simpl Zdigits2.
  destruct (fexp prec emax (Z.pos (digits2_pos m) + e) - e)%Z as [|n|n] eqn:Hn;
    simpl; rewrite ?shr_m_of_loc; try (split; lia).
  split; [|lia].
  rewrite iter_shr_1_m by (rewrite shr_m_of_loc; lia). rewrite shr_m_of_loc.
  pose proof (digits2_pos_bounds m) as [Hlo _].
  unfold fexp, emin, prec, emax in *.
  assert (Hnd : (Z.pos n ≤ Z.pos (digits2_pos m) - 1)%Z) by lia.
  apply Z.div_str_pos. split; [lia|].
  eapply Z.le_trans; [|exact Hlo]. apply Z.pow_le_mono_r; lia.
Qed.

Lemma round_nearest_even_pos (m : Z) (l : location) :
  (0 < m)%Z → (0 < round_nearest_even m l)%Z.
Proof.
  intros Hm. destruct l as [|[]]; simpl; try lia. destruct (Z.even m); lia.
Qed.

(** Rounding a positive mantissa never gives a zero. *)
Lemma binary_round_aux_not_zero (sx : bool) (mx ex : Z) (lx : location) (s : bool) :
  (0 < mx)%Z → (emin prec emax ≤ ex)%Z →
  binary_round_aux prec emax sx mx ex lx ≠ S754_zero s.
Proof.
  intros Hm He. unfold binary_round_aux.
  pose proof (shr_fexp_pos mx ex lx Hm He) as [H1 H1'].
  destruct (shr_fexp prec emax mx ex lx) as [mrs' e']. simpl in H1, H1'.
  pose proof (shr_fexp_pos _ e' loc_Exact
                (round_nearest_even_pos _ (loc_of_shr_record mrs') H1) H1') as [H2 _].
  destruct (shr_fexp prec emax _ e' loc_Exact) as [mrs'' e'']. simpl in H2.
  destruct (shr_m mrs'') as [|m|m]; try lia.
  destruct (e'' <=? emax - prec)%Z; discriminate.
Qed.

Lemma binary_normalize_not_zero (m e : Z) (sz s : bool) :
  m ≠ 0%Z → (emin prec emax ≤ e)%Z →
  binary_normalize prec emax m e sz ≠ S754_zero s.
Proof.
  intros Hm He. unfold binary_normalize, binary_round.
  destruct m as [|m|m]; [congruence| |];
    (destruct (shl_align m e (fexp prec emax (Z.pos (digits2_pos m) + e)))
       as [mz ez] eqn:Hal;
     apply binary_round_aux_not_zero; [lia|];
     unfold shl_align in Hal;
     destruct (fexp prec emax (Z.pos (digits2_pos m) + e) - e)%Z eqn:Hd;
     injection Hal as <- <-; try exact He; apply emin_le_fexp).
Qed.

Lemma is_double_finite (s : bool) (m : positive) (e : Z) :
  is_double (S754_finite s m e) = true →
  (emin prec emax ≤ e)%Z ∧ (Z.pos (digits2_pos m) ≤ prec)%Z
  ∧ ((emin prec emax < e)%Z → Z.pos (digits2_pos m) = prec).
Proof.
  unfold is_double, valid_binary, bounded, canonical_mantissa, fexp.
  intros [Hc _]%andb_true_iff. apply Z.eqb_eq in Hc. lia.
Qed.

Lemma shl_align_fst (m : positive) (e e' : Z) :
  (e' ≤ e)%Z → Z.pos (shl_align m e e').1 = (Z.pos m * 2 ^ (e - e'))%Z.
Proof.
  intros Hle. unfold shl_align.
  destruct (e' - e)%Z as [|d|d] eqn:Hd; simpl; try lia.
  - replace (e - e')%Z with 0%Z by lia. lia.
  - change (Z.pos (shift_pos d m) = (Z.pos m * 2 ^ (e - e'))%Z).
    rewrite shift_pos_correct. replace (e - e')%Z with (Z.pos d) by lia.
    rewrite Z.mul_comm. reflexivity.
Qed.

(** Two doubles with the same value are the same double. *)
Lemma aligned_mantissas_eq (mx my : positive) (ex ey : Z) (sx sy : bool) :
  is_double (S754_finite sx mx ex) = true →
  is_double (S754_finite sy my ey) = true →
  (Z.pos mx * 2 ^ (ex - Z.min ex ey) = Z.pos my * 2 ^ (ey - Z.min ex ey))%Z →
  mx = my ∧ ex = ey.
Proof.
  intros Hx Hy Heq.
  apply is_double_finite in Hx as (Hex & Hdx & Hnx).
  apply is_double_finite in Hy as (Hey & Hdy & Hny).
  pose proof (digits2_pos_bounds mx) as [Hlx Hux].
  pose proof (digits2_pos_bounds my) as [Hly Huy].
  assert (Hp : ∀ d, (0 < d)%Z → (2 ≤ 2 ^ d)%Z).
  { intros d Hd. change 2%Z with (2 ^ 1)%Z at 1. apply Z.pow_le_mono_r; lia. }
  assert (Hprec : ∀ m, (Z.pos (digits2_pos m) ≤ prec)%Z →
                       (Z.pos m < 2 ^ Z.pos (digits2_pos m))%Z → (Z.pos m < 2 ^ prec)%Z).
  { intros m Hd Hu. eapply Z.lt_le_trans; [exact Hu|]. apply Z.pow_le_mono_r; lia. }
  assert (Hhalf : (2 * 2 ^ (prec - 1) = 2 ^ prec)%Z) by reflexivity.
  destruct (Z.lt_trichotomy ex ey) as [Hlt|[->|Hlt]].
  - exfalso. rewrite Z.min_l in Heq by lia. rewrite Z.sub_diag, Z.mul_1_r in Heq.
    rewrite (Hny ltac:(lia)) in Hly.
    specialize (Hp (ey - ex)%Z ltac:(lia)). specialize (Hprec mx Hdx Hux).
    assert (2 ^ (prec - 1) > 0)%Z by (apply Z.lt_gt, Z.pow_pos_nonneg; unfold prec; lia).
    nia.
  - rewrite Z.min_id, Z.sub_diag, !Z.mul_1_r in Heq. split; [congruence | reflexivity].
  - exfalso. rewrite Z.min_r in Heq by lia. rewrite Z.sub_diag, Z.mul_1_r in Heq.
    rewrite (Hnx ltac:(lia)) in Hlx.
    specialize (Hp (ex - ey)%Z ltac:(lia)). specialize (Hprec my Hdy Huy).
    assert (2 ^ (prec - 1) > 0)%Z by (apply Z.lt_gt, Z.pow_pos_nonneg; unfold prec; lia).
    nia.
Qed.

(** The difference of two doubles is a zero only when they compare equal. *)
Lemma fsub_zero_inv (x y : float) :
  is_double x = true → is_double y = true →
  py_eq (x - y)%F zero = true → py_eq x y = true.
Proof.
  intros Hx Hy Hz. apply py_eq_zero in Hz as [sz Hz].
  destruct x as [sx|sx| |sx mx ex], y as [sy|sy| |sy my ey];
    try discriminate Hz; try reflexivity;
    try (destruct sx, sy; discriminate Hz).
  unfold fsub, SFsub in Hz.
  destruct (Z.eq_dec
              (cond_Zopp sx (Z.pos (shl_align mx ex (Z.min ex ey)).1)
               - cond_Zopp sy (Z.pos (shl_align my ey (Z.min ex ey)).1))%Z 0%Z)
    as [HM|HM].
  - rewrite !shl_align_fst in HM by lia.
    assert (Hs : sx = sy ∧ (Z.pos mx * 2 ^ (ex - Z.min ex ey)
                           = Z.pos my * 2 ^ (ey - Z.min ex ey))%Z).
    { assert (0 < Z.pos mx * 2 ^ (ex - Z.min ex ey))%Z
        by (apply Z.mul_pos_pos; [lia | apply Z.pow_pos_nonneg; lia]).
      assert (0 < Z.pos my * 2 ^ (ey - Z.min ex ey))%Z
        by (apply Z.mul_pos_pos; [lia | apply Z.pow_pos_nonneg; lia]).
      destruct sx, sy; simpl in HM; split; try reflexivity; lia. }
    destruct Hs as [-> Heq].
    destruct (aligned_mantissas_eq mx my ex ey sy sy Hx Hy Heq) as [-> ->].
    apply (py_eq_refl_finite (S754_finite sy my ey)). reflexivity.
  - exfalso. revert Hz. apply binary_normalize_not_zero; [exact HM|].
    apply is_double_finite in Hx as (Hex & _). apply is_double_finite in Hy as (Hey & _).
    lia.
Qed.

(** Between doubles, the divisor of the interpolation is a zero exactly when
    the two distances are finite and compare equal. *)
Lemma fsub_zero_iff (x y : float) :
  is_double x = true → is_double y = true →
  py_eq (x - y)%F zero = true ↔ py_eq x y = true ∧ is_finite x = true.
Proof.
  intros Hx Hy. split.
  - intros Hz. split; [apply fsub_zero_inv; assumption|].
    destruct (is_finite x) eqn:Hfin; [reflexivity|].
    rewrite (fsub_not_finite_l x y Hfin) in Hz. discriminate Hz.
  - intros [Heq Hfin]. apply fsub_equal_finite; assumption.
Qed.

Lemma interpolate_z_spec (d_target d_start d_end z_start z_end : float) :
  interpolate_z d_target d_start d_end z_start z_end
  = if py_eq (d_end - d_start)%F zero then Raise ZeroDivisionError
    else Ok (between z_start z_end d_start d_end d_target).
Proof.
  unfold interpolate_z, py_div, between.
  destruct (py_eq (d_end - d_start)%F zero); reflexivity.
Qed.

(** ** The interior interpolator *)

(** The loop equation of [while_invalid]: one test of the [while] condition. *)
Lemma while_invalid_unfold (base_z_values : list float) (nodataz : float) (idx : nat) :
  while_invalid base_z_values nodataz idx
  = match base_z_values !! idx with
    | None => Raise IndexError
    | Some z =>
        if py_eq z nodataz then while_invalid base_z_values nodataz (S idx)
        else Ok idx
    end.
Proof.
  unfold while_invalid. destruct (base_z_values !! idx) as [z|] eqn:Hz.
  - rewrite (drop_S _ _ _ Hz). reflexivity.
  - rewrite drop_ge by (apply lookup_ge_None; exact Hz). reflexivity.
Qed.

Lemma skip_invalid_spec (nodataz : float) (rest : list float) (n : nat) :
  match skip_invalid nodataz rest n with
  | Ok idx => ∃ k, idx = n + k ∧ first_valid rest nodataz k
  | Raise e => e = IndexError ∧ Forall (invalid nodataz) rest
  end.
Proof.
  revert n. induction rest as [|z rest IH]; intros n; simpl.
  - split; [reflexivity | constructor].
  - destruct (py_eq z nodataz) eqn:Hz.
    + specialize (IH (S n)).
      destruct (skip_invalid nodataz rest (S n)) as [idx|e].
      * destruct IH as (k & -> & Hk & Hb). exists (S k).
        split; [lia|]. split; [exact Hk|].
        intros [|m] Hm; [exists z; split; [reflexivity | exact Hz] | apply Hb; lia].
      * destruct IH as [-> Hall]. split; [reflexivity | constructor; auto].
    + exists 0. split; [lia|]. split.
      * exists z. split; [reflexivity | exact Hz].
      * intros m Hm. lia.
Qed.

Lemma while_invalid_spec (base_z_values : list float) (nodataz : float) (start : nat) :
  match while_invalid base_z_values nodataz start with
  | Ok idx => start ≤ idx ∧ valid_at base_z_values nodataz idx
              ∧ ∀ m, start ≤ m < idx → invalid_at base_z_values nodataz m
  | Raise e => e = IndexError
               ∧ ∀ m, start ≤ m < length base_z_values →
                      invalid_at base_z_values nodataz m
  end.
Proof.
  unfold while_invalid.
  pose proof (skip_invalid_spec nodataz (drop start base_z_values) start) as H.
  destruct (skip_invalid nodataz (drop start base_z_values) start) as [idx|e].
  - destruct H as (k & -> & (x & Hk & Hx) & Hb). rewrite lookup_drop in Hk.
    split; [lia|]. split; [exists x; auto|].
    intros m Hm. destruct (Hb (m - start)) as (y & Hy & Hyi); [lia|].
    rewrite lookup_drop in Hy.
    replace (start + (m - start)) with m in Hy by lia. exists y. auto.
  - destruct H as [-> Hall]. split; [reflexivity|]. intros m Hm.
    rewrite Forall_lookup in Hall.
    destruct (lookup_lt_is_Some_2 base_z_values m) as [x Hx]; [lia|].
    exists x. split; [exact Hx|]. apply (Hall (m - start)). rewrite lookup_drop.
    replace (start + (m - start)) with m by lia. exact Hx.
Qed.

Lemma backward_anchor_unique values sentinel i j j' :
  backward_anchor values sentinel i j → backward_anchor values sentinel i j' → j = j'.
Proof.
  intros (Hj & Hv & Hb) (Hj' & Hv' & Hb').
  destruct (lt_eq_lt_dec j j') as [[Hlt | ->] | Hlt]; [|reflexivity|]; exfalso.
  - exact (valid_invalid_at _ _ _ Hv' (Hb j' (conj Hlt Hj'))).
  - exact (valid_invalid_at _ _ _ Hv (Hb' j (conj Hlt Hj))).
Qed.

Lemma forward_anchor_unique values sentinel i k k' :
  forward_anchor values sentinel i k → forward_anchor values sentinel i k' → k = k'.
Proof.
  intros (Hk & Hv & Hb) (Hk' & Hv' & Hb').
  destruct (lt_eq_lt_dec k k') as [[Hlt | ->] | Hlt]; [|reflexivity|]; exfalso.
  - exact (valid_invalid_at _ _ _ Hv (Hb' k (conj Hk Hlt))).
  - exact (valid_invalid_at _ _ _ Hv' (Hb k' (conj Hk' Hlt))).
Qed.

(** The forward search from a missing index stays inside the list. *)
Lemma forward_scan_finds values sentinel i :
  valid_at values sentinel (length values - 1) →
  invalid_at values sentinel i →
  ∃ k, while_invalid values sentinel (S i) = Ok k
       ∧ i < k < length values ∧ forward_anchor values sentinel i k.
Proof.
  intros Hlast Hvi. pose proof (invalid_at_lt _ _ _ Hvi) as Hi.
  pose proof (while_invalid_spec values sentinel (S i)) as Hscan.
  destruct (while_invalid values sentinel (S i)) as [k|e].
  - destruct Hscan as (Hk & Hvk & Hall). exists k. split; [reflexivity|].
    pose proof (valid_at_lt _ _ _ Hvk). split; [lia|].
    split; [lia|]. split; [exact Hvk|]. intros m Hm. apply Hall. lia.
  - exfalso. destruct Hscan as [_ Hall].
    destruct (decide (i = length values - 1)) as [->|Hne].
    + exact (valid_invalid_at _ _ _ Hlast Hvi).
    + apply (valid_invalid_at _ _ _ Hlast). apply Hall. lia.
Qed.

Section vertex_loop.
Variables (dist values : list float) (nodataz : float).

Local Abbreviation inv := (inv dist values nodataz).
Local Abbreviation item_ok := (item_ok dist values nodataz).
Local Abbreviation zero_divisor_at := (zero_divisor_at dist values nodataz).

Hypothesis Hlen : length dist = length values.
Hypothesis Hfirst : valid_at values nodataz 0.
Hypothesis Hlast : valid_at values nodataz (length values - 1).

Lemma inv_init : inv 0 (Locals 0 None None None None []).
Proof. constructor; simpl; intros; lia. Qed.

(** The forward anchor is found, or taken from the previous search. *)
Lemma end_interp_spec i st :
  inv i st → invalid_at values nodataz i →
  ∃ k zk dk,
    (if decide (end_interp_idx st ≤ i) then
       idx ← while_invalid values nodataz (S i);
       z ← getitem values idx;
       d ← getitem dist idx;
       Ok (Locals idx (start_interp_z st) (start_interp_dist st)
                  (Some z) (Some d) (new_zs st))
     else Ok st)
    = Ok (Locals k (start_interp_z st) (start_interp_dist st)
                 (Some zk) (Some dk) (new_zs st))
    ∧ forward_anchor values nodataz i k
    ∧ values !! k = Some zk ∧ dist !! k = Some dk.
Proof.
  intros Hinv Hvi. pose proof (invalid_at_lt _ _ _ Hvi) as Hi.
  destruct (decide (end_interp_idx st ≤ i)) as [Hle|Hgt].
  - destruct (forward_scan_finds values nodataz i Hlast Hvi) as (k & -> & Hk & Hfwd).
    pose proof Hfwd as (_ & (zk & Hzk & Hnzk) & _).
    destruct (lookup_lt_is_Some_2 dist k) as [dk Hdk]; [lia|].
    exists k, zk, dk. unfold getitem. simpl. rewrite Hzk, Hdk. simpl. auto.
  - destruct (inv_end _ _ _ i st Hinv) as (Hall & zk & dk & Hzk & Hnzk & Hdk & Hez & Hed); [lia|].
    exists (end_interp_idx st), zk, dk.
    split; [destruct st; simpl in *; congruence|]. split; [|auto].
    split; [lia|]. split; [exists zk; auto|]. intros m Hm. apply Hall. lia.
Qed.

Lemma vertex_step_spec i st di vi :
  inv i st → dist !! i = Some di → values !! i = Some vi →
  match vertex_step dist values nodataz st (i, (di, vi)) with
  | Ok st' => inv (S i) st'
  | Raise e => e = ZeroDivisionError ∧ zero_divisor_at i
  end.
Proof.
  intros Hinv Hdi Hvi. pose proof (lookup_lt_Some _ _ _ Hvi) as Hi.
  unfold vertex_step. destruct (py_ne vi nodataz) eqn:Hne.
  - apply py_ne_true in Hne.
    assert (Hvalid : valid_at values nodataz i) by (exists vi; auto).
    constructor; simpl.
    + lia.
    + rewrite length_app, (inv_len _ _ _ i st Hinv). simpl. lia.
    + intros m Hm. destruct (decide (m = i)) as [->|Hmi].
      * exists vi. split.
        -- apply list_lookup_middle. symmetry. apply (inv_len _ _ _ i st Hinv).
        -- exists vi. split; [exact Hvi|]. unfold valid in Hne. rewrite Hne. reflexivity.
      * destruct (inv_items _ _ _ i st Hinv m) as (o & Ho & Hok); [lia|].
        exists o. split; [apply lookup_app_l_Some, Ho | exact Hok].
    + intros _. exists i, vi, di. rewrite Nat.sub_0_r.
      split; [|auto]. split; [lia|]. split; [exact Hvalid|]. intros m Hm. lia.
    + intros Hlt. exfalso.
      destruct (inv_end _ _ _ i st Hinv) as [Hall _]; [lia|].
      apply (valid_invalid_at _ _ _ Hvalid). apply Hall. lia.
  - apply py_ne_false in Hne.
    assert (Hmiss : invalid_at values nodataz i) by (exists vi; auto).
    assert (Hpos : 0 < i).
    { destruct i; [|lia]. exfalso. exact (valid_invalid_at _ _ _ Hfirst Hmiss). }
    destruct (inv_start _ _ _ i st Hinv Hpos) as (j & zj & dj & Hback & Hzj & Hdj & Hsz & Hsd).
    assert (Hback' : backward_anchor values nodataz i j).
    { destruct Hback as (Hj & Hvj & Hb). split; [lia|]. split; [exact Hvj|].
      intros m Hm. destruct (decide (m = i)) as [->|]; [exact Hmiss | apply Hb; lia]. }
    destruct (end_interp_spec i st Hinv Hmiss) as (k & zk & dk & -> & Hfwd & Hzk & Hdk).
    simpl. rewrite Hsd, Hsz. simpl. rewrite interpolate_z_spec.
    destruct (py_eq (dk - dj)%F zero) eqn:Hd; simpl.
    + split; [reflexivity|]. split; [exact Hmiss|]. exists j, k, dj, dk. auto.
    + constructor; simpl.
      * lia.
      * rewrite length_app, (inv_len _ _ _ i st Hinv). simpl. lia.
      * intros m Hm. destruct (decide (m = i)) as [->|Hmi].
        -- eexists. split.
           ++ apply list_lookup_middle. symmetry. apply (inv_len _ _ _ i st Hinv).
           ++ exists vi. split; [exact Hvi|]. unfold invalid in Hne. rewrite Hne.
              exists j, k, zj, zk, dj, dk, di.
              split; [exact Hback'|]. split; [exact Hfwd|]. repeat split; auto.
        -- destruct (inv_items _ _ _ i st Hinv m) as (o & Ho & Hok); [lia|].
           exists o. split; [apply lookup_app_l_Some, Ho | exact Hok].
      * intros _. exists j, zj, dj. rewrite Nat.sub_0_r. auto.
      * intros Hlt. destruct Hfwd as (Hk & (x & Hx & Hnx) & Hall).
        split; [intros m Hm; apply Hall; lia|].
        exists zk, dk. repeat split; auto. congruence.
Qed.

Lemma vertex_loop_spec rest :
  ∀ i st, drop i (zip dist values) = rest → inv i st →
  match for_each (vertex_step dist values nodataz) (enumerate_from i rest) st with
  | Ok st' => inv (length values) st'
  | Raise e => e = ZeroDivisionError ∧ ∃ m, zero_divisor_at m
  end.
Proof.
  induction rest as [|[d v] rest IH]; intros i st Hdrop Hinv.
  - simpl. apply drop_nil_inv in Hdrop. rewrite length_zip, Hlen, Nat.min_id in Hdrop.
    pose proof (inv_le _ _ _ i st Hinv) as Hle.
    replace (length values) with i by lia. exact Hinv.
  - assert (Hitem : zip dist values !! i = Some (d, v)).
    { rewrite <- (Nat.add_0_r i), <- lookup_drop, Hdrop. reflexivity. }
    apply lookup_zip_with_Some in Hitem as (d' & v' & Heq & Hd & Hv).
    injection Heq as -> ->.
    pose proof (vertex_step_spec i st d' v' Hinv Hd Hv) as Hstep.
    change (enumerate_from i ((d', v') :: rest))
      with ((i, (d', v')) :: enumerate_from (S i) rest).
    rewrite for_each_cons.
    destruct (vertex_step dist values nodataz st (i, (d', v'))) as [st'|e].
    + apply IH; [|exact Hstep].
      replace (S i) with (i + 1) by lia. rewrite <- drop_drop, Hdrop. reflexivity.
    + destruct Hstep as [-> Hdeg]. split; [reflexivity | exists i; exact Hdeg].
Qed.

(** The vertex loop either returns the expected value at every index, or
    stops on the division by zero of a missing index whose two anchors are
    at distances of zero difference. *)
Lemma interpolate_missing_z_spec :
  match interpolate_missing_z dist values nodataz with
  | Ok out => length out = length values
              ∧ ∀ i, i < length values → ∃ o, out !! i = Some o ∧ item_ok i o
  | Raise e => e = ZeroDivisionError ∧ ∃ i, zero_divisor_at i
  end.
Proof.
  unfold interpolate_missing_z, enumerate.
  pose proof (vertex_loop_spec (zip dist values) 0 _ eq_refl inv_init) as Hloop.
  destruct (for_each _ _ _) as [st|e]; simpl.
  - split; [apply (inv_len _ _ _ _ _ Hloop) | apply (inv_items _ _ _ _ _ Hloop)].
  - exact Hloop.
Qed.

(** The two outcomes exclude each other. *)
Lemma item_ok_not_zero_divisor i o : item_ok i o → ¬ zero_divisor_at i.
Proof.
  intros (v & Hv & Hok) ((x & Hx & Hxi) & j & k & dj & dk & Hb & Hf & Hdj & Hdk & Hz).
  assert (v = x) as -> by congruence.
  unfold invalid in Hxi. rewrite Hxi in Hok.
  destruct Hok as (j' & k' & zj & zk & dj' & dk' & di
                   & Hb' & Hf' & _ & _ & Hdj' & Hdk' & _ & Hne & _).
  pose proof (backward_anchor_unique _ _ _ _ _ Hb Hb'). subst j'.
  pose proof (forward_anchor_unique _ _ _ _ _ Hf Hf'). subst k'.
  congruence.
Qed.
End vertex_loop.

(** Every iteration that returns appends one value to [new_zs]. *)
Lemma vertex_step_length dist values nodataz st item st' :
  vertex_step dist values nodataz st item = Ok st' →
  length (new_zs st') = S (length (new_zs st)).
Proof.
  destruct item as [i [d v]]. unfold vertex_step.
  destruct (py_ne v nodataz).
  - intros [= <-]. simpl. rewrite length_app. simpl. lia.
  - destruct (decide (end_interp_idx st ≤ i)).
    + destruct (while_invalid values nodataz (S i)) as [k|]; [|discriminate].
      simpl. destruct (getitem values k); [|discriminate].
      simpl. destruct (getitem dist k); [|discriminate].
      simpl. destruct (start_interp_dist st); [|discriminate].
      simpl. destruct (start_interp_z st); [|discriminate].
      simpl. destruct (interpolate_z _ _ _ _ _); [|discriminate].
      simpl. intros [= <-]. simpl. rewrite length_app. simpl. lia.
    + simpl. destruct (start_interp_dist st); [|discriminate].
      simpl. destruct (end_interp_dist st); [|discriminate].
      simpl. destruct (start_interp_z st); [|discriminate].
      simpl. destruct (end_interp_z st); [|discriminate].
      simpl. destruct (interpolate_z _ _ _ _ _); [|discriminate].
      simpl. intros [= <-]. simpl. rewrite length_app. simpl. lia.
Qed.

Lemma vertex_loop_length dist values nodataz items :
  ∀ st st',
    for_each (vertex_step dist values nodataz) items st = Ok st' →
    length (new_zs st') = length (new_zs st) + length items.
Proof.
  induction items as [|item items IH]; intros st st'.
  - intros [= <-]. simpl. lia.
  - rewrite for_each_cons.
    destruct (vertex_step dist values nodataz st item) as [st1|] eqn:Hstep;
      [|discriminate].
    intros Hrun. apply IH in Hrun. apply vertex_step_length in Hstep.
    simpl. lia.
Qed.

Lemma interpolate_missing_z_length dist values nodataz out :
  interpolate_missing_z dist values nodataz = Ok out →
  length out = Nat.min (length dist) (length values).
Proof.
  unfold interpolate_missing_z.
  destruct (for_each _ _ _) as [st|] eqn:Hrun; [|discriminate].
  intros [= <-]. apply vertex_loop_length in Hrun.
  rewrite Hrun. unfold enumerate. rewrite length_enumerate_from, length_zip.
  reflexivity.
Qed.

Lemma length_interpolated dist values sentinel out :
  length dist = length values →
  interpolate_missing_z dist values sentinel = Ok out → length out = length values.
Proof. intros Hlen Hrun. apply interpolate_missing_z_length in Hrun. lia. Qed.

(** On an input that satisfies the precondition and has no zero
    divisor, the loop returns the expected value at every index. *)
Lemma interpolate_missing_z_total dist values sentinel :
  length dist = length values →
  valid_at values sentinel 0 → valid_at values sentinel (length values - 1) →
  no_zero_divisor dist values sentinel →
  ∃ out, interpolate_missing_z dist values sentinel = Ok out
         ∧ length out = length values
         ∧ ∀ i, i < length values →
                ∃ o, out !! i = Some o ∧ item_ok dist values sentinel i o.
Proof.
  intros Hlen Hfirst Hlast Hapart.
  pose proof (interpolate_missing_z_spec dist values sentinel Hlen Hfirst Hlast) as Hspec.
  destruct (interpolate_missing_z dist values sentinel) as [out|e].
  - exists out. split; [reflexivity | exact Hspec].
  - exfalso. destruct Hspec as (_ & i & Hi & j & k & dj & dk & Hb & Hf & Hdj & Hdk & Hz).
    rewrite (Hapart i j k dj dk Hi Hb Hf Hdj Hdk) in Hz. discriminate Hz.
Qed.

Lemma interpolate_ok_items dist values sentinel out :
  length dist = length values →
  valid_at values sentinel 0 → valid_at values sentinel (length values - 1) →
  interpolate_missing_z dist values sentinel = Ok out →
  length out = length values
  ∧ ∀ i, i < length values → ∃ o, out !! i = Some o ∧ item_ok dist values sentinel i o.
Proof.
  intros Hlen Hfirst Hlast Hrun.
  pose proof (interpolate_missing_z_spec dist values sentinel Hlen Hfirst Hlast) as Hspec.
  rewrite Hrun in Hspec. exact Hspec.
Qed.

(** The valid values are kept. *)
Lemma interpolate_keeps_valid dist values sentinel out :
  length dist = length values →
  valid_at values sentinel 0 → valid_at values sentinel (length values - 1) →
  interpolate_missing_z dist values sentinel = Ok out →
  ∀ i v, values !! i = Some v → valid sentinel v → out !! i = Some v.
Proof.
  intros Hlen Hfirst Hlast Hrun i v Hv Hne.
  destruct (interpolate_ok_items _ _ _ _ Hlen Hfirst Hlast Hrun) as [_ Hitems].
  destruct (Hitems i) as (o & Ho & v' & Hv' & Hok); [eapply lookup_lt_Some, Hv|].
  assert (v' = v) as -> by congruence.
  unfold valid in Hne. rewrite Hne in Hok. congruence.
Qed.

(** The missing values are interpolated between their anchors. *)
Lemma interpolate_fills_missing dist values sentinel out i j k zj zk dj dk di :
  length dist = length values →
  valid_at values sentinel 0 → valid_at values sentinel (length values - 1) →
  interpolate_missing_z dist values sentinel = Ok out →
  invalid_at values sentinel i →
  backward_anchor values sentinel i j → forward_anchor values sentinel i k →
  values !! j = Some zj → values !! k = Some zk →
  dist !! j = Some dj → dist !! k = Some dk → dist !! i = Some di →
  out !! i = Some (between zj zk dj dk di).
Proof.
  intros Hlen Hfirst Hlast Hrun (x & Hx & Hxi) Hb Hf Hzj Hzk Hdj Hdk Hdi.
  destruct (interpolate_ok_items _ _ _ _ Hlen Hfirst Hlast Hrun) as [_ Hitems].
  destruct (Hitems i) as (o & Ho & v' & Hv' & Hok); [eapply lookup_lt_Some, Hx|].
  assert (v' = x) as -> by congruence.
  unfold invalid in Hxi. rewrite Hxi in Hok.
  destruct Hok as (j' & k' & zj' & zk' & dj' & dk' & di'
                   & Hb' & Hf' & Hzj' & Hzk' & Hdj' & Hdk' & Hdi' & _ & ->).
  pose proof (backward_anchor_unique _ _ _ _ _ Hb Hb'). subst j'.
  pose proof (forward_anchor_unique _ _ _ _ _ Hf Hf'). subst k'.
  rewrite Ho. congruence.
Qed.

Lemma item_ok_unique dist values sentinel i o o' :
  item_ok dist values sentinel i o → item_ok dist values sentinel i o' → o = o'.
Proof.
  intros (v & Hv & Hok) (v' & Hv' & Hok').
  assert (v' = v) as -> by congruence.
  destruct (py_eq v sentinel); [|congruence].
  destruct Hok as (j & k & zj & zk & dj & dk & di
                   & Hb & Hf & Hzj & Hzk & Hdj & Hdk & Hdi & _ & ->).
  destruct Hok' as (j' & k' & zj' & zk' & dj' & dk' & di'
                    & Hb' & Hf' & Hzj' & Hzk' & Hdj' & Hdk' & Hdi' & _ & ->).
  pose proof (backward_anchor_unique _ _ _ _ _ Hb Hb'). subst j'.
  pose proof (forward_anchor_unique _ _ _ _ _ Hf Hf'). subst k'.
  congruence.
Qed.

Lemma inv_reset dist values nodataz previous :
  inv dist values nodataz 0 (reset_locals previous).
Proof. constructor; simpl; intros; lia. Qed.

(** The values that the lines processed before have left in the locals are
    never read: the loop started with them computes what it computes with
    unset locals. *)
Lemma vertex_loop_reset dist values nodataz previous :
  length dist = length values →
  valid_at values nodataz 0 → valid_at values nodataz (length values - 1) →
  (st ← for_each (vertex_step dist values nodataz)
                 (enumerate (zip dist values)) (reset_locals previous);
   Ok (new_zs st))
  = interpolate_missing_z dist values nodataz.
Proof.
  intros Hlen Hfirst Hlast.
  pose proof (vertex_loop_spec dist values nodataz Hlen Hfirst Hlast
                (zip dist values) 0 _ eq_refl (inv_reset _ _ _ previous)) as Hrun.
  pose proof (interpolate_missing_z_spec dist values nodataz Hlen Hfirst Hlast) as Hspec.
  unfold enumerate.
  destruct (for_each _ _ (reset_locals previous)) as [st|e]; simpl.
  - destruct (interpolate_missing_z dist values nodataz) as [out|e'].
    + f_equal. destruct Hspec as [Hout Hitems].
      apply list_eq. intros i. destruct (decide (i < length values)) as [Hi|Hi].
      * destruct (inv_items _ _ _ _ _ Hrun i Hi) as (o & -> & Hok).
        destruct (Hitems i Hi) as (o' & -> & Hok').
        f_equal. eapply item_ok_unique; eassumption.
      * rewrite !(proj2 (lookup_ge_None _ _)); [reflexivity | lia |].
        rewrite (inv_len _ _ _ _ _ Hrun). lia.
    + exfalso. destruct Hspec as (_ & i & Hdeg).
      destruct (inv_items _ _ _ _ _ Hrun i) as (o & _ & Hok).
      { destruct Hdeg as [Hi _]. eapply invalid_at_lt, Hi. }
      exact (item_ok_not_zero_divisor _ _ _ _ _ Hok Hdeg).
  - destruct Hrun as (-> & i & Hdeg).
    destruct (interpolate_missing_z dist values nodataz) as [out|e'].
    + exfalso. destruct Hspec as [_ Hitems].
      destruct (Hitems i) as (o & _ & Hok).
      { destruct Hdeg as [Hi _]. eapply invalid_at_lt, Hi. }
      exact (item_ok_not_zero_divisor _ _ _ _ _ Hok Hdeg).
    + destruct Hspec as [-> _]. reflexivity.
Qed.

(** Without a missing value the loop returns the values as they are. *)
Lemma interpolate_missing_z_no_missing dist values sentinel :
  length dist = length values → Forall (valid sentinel) values →
  interpolate_missing_z dist values sentinel = Ok values.
Proof.
  intros Hlen Hall. pose proof (proj1 (Forall_valid_at _ _) Hall) as Hvalid.
  destruct values as [|v values].
  { destruct dist; [reflexivity | discriminate]. }
  destruct (interpolate_missing_z_total dist (v :: values) sentinel Hlen)
    as (out & -> & Hout & Hitems).
  - apply Hvalid. simpl. lia.
  - apply Hvalid. simpl. lia.
  - intros i j k dj dk Hi. exfalso.
    apply (valid_invalid_at _ _ _ (Hvalid i (invalid_at_lt _ _ _ Hi)) Hi).
  - f_equal. apply list_eq. intros i.
    destruct (decide (i < length (v :: values))) as [Hi|Hi].
    + destruct (Hitems i Hi) as (o & -> & x & Hx & Hok).
      rewrite Hx. f_equal.
      rewrite Forall_lookup in Hall. specialize (Hall i x Hx).
      unfold valid in Hall. rewrite Hall in Hok. exact Hok.
    + rewrite !(proj2 (lookup_ge_None _ _)) by lia. reflexivity.
Qed.

(** When the last value is missing the search for the end of interpolation
    runs past the end of the list. *)
Lemma vertex_step_end_in_list dist values nodataz st item st' :
  vertex_step dist values nodataz st item = Ok st' →
  end_in_list values st → end_in_list values st'.
Proof.
  destruct item as [i [d v]]. unfold vertex_step, end_in_list.
  destruct (py_ne v nodataz).
  - intros [= <-]. simpl. auto.
  - destruct (decide (end_interp_idx st ≤ i)).
    + destruct (while_invalid values nodataz (S i)) as [k|]; [|discriminate].
      simpl. destruct (getitem values k) as [zk|] eqn:Hzk; [|discriminate].
      assert (Hk : k < length values).
      { unfold getitem in Hzk. destruct (values !! k) eqn:Hv; [|discriminate].
        eapply lookup_lt_Some, Hv. }
      simpl. destruct (getitem dist k); [|discriminate].
      simpl. destruct (start_interp_dist st); [|discriminate].
      simpl. destruct (start_interp_z st); [|discriminate].
      simpl. destruct (interpolate_z _ _ _ _ _); [|discriminate].
      simpl. intros [= <-] _. simpl. lia.
    + simpl. destruct (start_interp_dist st); [|discriminate].
      simpl. destruct (end_interp_dist st); [|discriminate].
      simpl. destruct (start_interp_z st); [|discriminate].
      simpl. destruct (end_interp_z st); [|discriminate].
      simpl. destruct (interpolate_z _ _ _ _ _); [|discriminate].
      simpl. intros [= <-]. simpl. auto.
Qed.

Lemma vertex_step_last_missing dist values nodataz st d z :
  values !! (length values - 1) = Some z → invalid nodataz z →
  end_in_list values st →
  vertex_step dist values nodataz st (length values - 1, (d, z))
  = Raise IndexError.
Proof.
  intros Hlast Hz Hend. pose proof (lookup_lt_Some _ _ _ Hlast) as Hn.
  unfold vertex_step.
  rewrite (proj2 (py_ne_false z nodataz) Hz).
  rewrite decide_True by exact Hend.
  rewrite while_invalid_unfold.
  rewrite (proj2 (lookup_ge_None values (S (length values - 1)))) by lia.
  reflexivity.
Qed.

Lemma vertex_loop_last_missing dist values nodataz rest :
  length dist = length values →
  invalid_at values nodataz (length values - 1) →
  ∀ i st, drop i (zip dist values) = rest → i ≤ length values - 1 →
          end_in_list values st →
          ∃ e, for_each (vertex_step dist values nodataz) (enumerate_from i rest) st
               = Raise e.
Proof.
  intros Hlen (z & Hlast & Hz). pose proof (lookup_lt_Some _ _ _ Hlast) as Hn.
  induction rest as [|[d v] rest IH]; intros i st Hdrop Hi Hend.
  - apply drop_nil_inv in Hdrop. rewrite length_zip, Hlen, Nat.min_id in Hdrop. lia.
  - assert (Hitem : zip dist values !! i = Some (d, v)).
    { rewrite <- (Nat.add_0_r i), <- lookup_drop, Hdrop. reflexivity. }
    apply lookup_zip_with_Some in Hitem as (d' & v' & Heq & Hd & Hv).
    injection Heq as -> ->.
    change (enumerate_from i ((d', v') :: rest))
      with ((i, (d', v')) :: enumerate_from (S i) rest).
    rewrite for_each_cons.
    destruct (decide (i = length values - 1)) as [->|Hne].
    + assert (v' = z) as -> by congruence.
      rewrite (vertex_step_last_missing dist values nodataz st d' z Hlast Hz Hend). eauto.
    + destruct (vertex_step dist values nodataz st (i, (d', v'))) as [st'|e] eqn:Hstep;
        [|eauto].
      apply (IH (S i) st').
      * replace (S i) with (i + 1) by lia. rewrite <- drop_drop, Hdrop. reflexivity.
      * lia.
      * eapply vertex_step_end_in_list; eassumption.
Qed.

Lemma interpolate_missing_z_last_missing dist values nodataz :
  length dist = length values →
  (∃ z, last values = Some z ∧ invalid nodataz z) →
  ∃ e, interpolate_missing_z dist values nodataz = Raise e.
Proof.
  intros Hlen (z & Hlast & Hz). rewrite last_lookup in Hlast.
  replace (pred (length values)) with (length values - 1) in Hlast by lia.
  destruct (vertex_loop_last_missing dist values nodataz (zip dist values) Hlen
              (ex_intro _ z (conj Hlast Hz))
              0 (Locals 0 None None None None []) eq_refl) as (e & He).
  - lia.
  - unfold end_in_list. simpl. lia.
  - exists e. unfold interpolate_missing_z, enumerate. rewrite He. reflexivity.
Qed.

(** ** Zero divisors and equal distances *)

(** Anchors at the same finite distance give a zero divisor; between
    doubles, nothing else does. *)
Lemma degenerate_zero_divisor dist values sentinel i :
  degenerate_at dist values sentinel i → zero_divisor_at dist values sentinel i.
Proof.
  intros (Hi & j & k & dj & dk & Hb & Hf & Hdj & Hdk & Heq & Hfin).
  split; [exact Hi|]. exists j, k, dj, dk. repeat (split; [assumption|]).
  apply fsub_equal_finite; [exact Heq|]. rewrite (py_eq_is_finite _ _ Heq). exact Hfin.
Qed.

Lemma zero_divisor_degenerate dist values sentinel i :
  doubles dist →
  zero_divisor_at dist values sentinel i → degenerate_at dist values sentinel i.
Proof.
  intros Hd (Hi & j & k & dj & dk & Hb & Hf & Hdj & Hdk & Hz).
  unfold doubles in Hd. rewrite Forall_lookup in Hd.
  apply fsub_zero_iff in Hz as [Heq Hfin]; [|apply (Hd k dk Hdk)|apply (Hd j dj Hdj)].
  split; [exact Hi|]. exists j, k, dj, dk. repeat (split; [assumption|]).
  rewrite <- (py_eq_is_finite _ _ Heq). exact Hfin.
Qed.

Lemma anchors_apart_no_zero_divisor dist values sentinel :
  doubles dist → anchors_apart dist values sentinel →
  no_zero_divisor dist values sentinel.
Proof.
  intros Hd Hapart i j k dj dk Hi Hb Hf Hdj Hdk.
  destruct (py_eq (dk - dj)%F zero) eqn:Hz; [|reflexivity].
  exfalso. apply (Hapart i). apply zero_divisor_degenerate; [exact Hd|].
  split; [exact Hi|]. exists j, k, dj, dk. auto.
Qed.

(** The loop fails on a missing index whose anchors are at the same finite
    distance. *)
Lemma interpolate_missing_z_degenerate dist values sentinel i :
  length dist = length values →
  valid_at values sentinel 0 → valid_at values sentinel (length values - 1) →
  degenerate_at dist values sentinel i →
  interpolate_missing_z dist values sentinel = Raise ZeroDivisionError.
Proof.
  intros Hlen Hfirst Hlast Hdeg. apply degenerate_zero_divisor in Hdeg.
  pose proof (interpolate_missing_z_spec dist values sentinel Hlen Hfirst Hlast) as Hspec.
  destruct (interpolate_missing_z dist values sentinel) as [out|e].
  - exfalso. destruct Hspec as [_ Hitems].
    destruct (Hitems i) as (o & _ & Hok); [destruct Hdeg as [Hi _]; eapply invalid_at_lt, Hi|].
    exact (item_ok_not_zero_divisor _ _ _ _ _ Hok Hdeg).
  - destruct Hspec as [-> _]. reflexivity.
Qed.

(** ** The cumulated distances *)

Lemma length_accumulate_from total rest :
  length (accumulate_from total rest) = length rest.
Proof. revert total. induction rest as [|x rest IH]; intros total; simpl; auto. Qed.

Lemma length_cumulated_dist seg_lengths :
  length (cumulated_dist seg_lengths) = S (length seg_lengths).
Proof.
  unfold cumulated_dist. destruct seg_lengths as [|x rest]; [reflexivity|].
  simpl. rewrite length_accumulate_from. reflexivity.
Qed.

Lemma accumulate_from_step rest :
  ∀ total i d s,
    (total :: accumulate_from total rest) !! i = Some d → rest !! i = Some s →
    (total :: accumulate_from total rest) !! S i = Some (d + s)%F.
Proof.
  induction rest as [|x rest IH]; intros total i d s Hd Hs; [discriminate|].
  destruct i as [|i].
  - injection Hd as <-. injection Hs as <-. reflexivity.
  - simpl in Hd, Hs. apply (IH (total + x)%F i d s Hd Hs).
Qed.

(** The distance of the second vertex is the length of the first segment
    itself, and from there on each distance is the one before plus the
    length of the segment. *)
Lemma cumulated_dist_first seg_lengths :
  cumulated_dist seg_lengths !! 1 = seg_lengths !! 0.
Proof. destruct seg_lengths; reflexivity. Qed.

Lemma cumulated_dist_step seg_lengths i d s :
  0 < i →
  cumulated_dist seg_lengths !! i = Some d → seg_lengths !! i = Some s →
  cumulated_dist seg_lengths !! S i = Some (d + s)%F.
Proof.
  unfold cumulated_dist. destruct seg_lengths as [|x rest]; [discriminate|].
  destruct i as [|i]; [lia|]. simpl. intros _ Hd Hs.
  apply (accumulate_from_step rest x i d s Hd Hs).
Qed.

(** ** The body of the feature loop *)

Lemma ends_missing_spec (z : list float) (nodataz : float) :
  z ≠ [] →
  ∃ ends, ends_missing z nodataz = Ok ends
          ∧ (ends = false ↔ valid_at z nodataz 0 ∧ valid_at z nodataz (length z - 1)).
Proof.
  intros Hne.
  assert (Hpos : 0 < length z) by (destruct z; [congruence | simpl; lia]).
  destruct (lookup_lt_is_Some_2 z 0 Hpos) as [x0 Hx0].
  assert (Hlast : is_Some (last z)) by (apply last_is_Some; exact Hne).
  destruct Hlast as [xl Hxl]. pose proof Hxl as Hxl'. rewrite last_lookup in Hxl'.
  replace (pred (length z)) with (length z - 1) in Hxl' by lia.
  unfold ends_missing, getitem, getitem_last. rewrite Hx0, Hxl. simpl.
  destruct (py_eq x0 nodataz) eqn:H0.
  - exists true. split; [reflexivity|]. split; [discriminate|].
    intros [Hv _]. exfalso. apply (valid_invalid_at _ _ _ Hv). exists x0. auto.
  - simpl. exists (py_eq xl nodataz). split; [reflexivity|].
    destruct (py_eq xl nodataz) eqn:Hl.
    + split; [discriminate|].
      intros [_ Hv]. exfalso. apply (valid_invalid_at _ _ _ Hv). exists xl. auto.
    + split; [|reflexivity].
      intros _. split; [exists x0; auto | exists xl; auto].
Qed.

(** The line that is neither left unchanged: its base values are the list
    returned by [fill_list_ends], and the outcome is that of the vertex loop
    on them, started with unset locals. *)
Lemma process_line_interpolated previous (z segs : list float) (nodataz : float) :
  S (length segs) = length z →
  Exists (invalid nodataz) z → ¬ Forall (invalid nodataz) z →
  ∃ base n ends,
    fill_list_ends z nodataz = Ok (Some (base, n))
    ∧ ends_missing z nodataz = Ok ends
    ∧ (ends = false → base = z)
    ∧ length base = length z
    ∧ valid_at base nodataz 0 ∧ valid_at base nodataz (length base - 1)
    ∧ match process_line previous z segs nodataz with
      | inr (out, st) =>
          interpolate_missing_z (cumulated_dist segs) base nodataz = Ok (new_zs st)
          ∧ out = Interpolated (if ends then Some n else None)
                               (py_count nodataz base) (length z) (new_zs st)
      | inl e =>
          e = PyExn ZeroDivisionError
          ∧ interpolate_missing_z (cumulated_dist segs) base nodataz
            = Raise ZeroDivisionError
      end.
Proof.
  intros Hlen Hin Hnall.
  assert (Hne : z ≠ []) by (intros ->; apply Hnall; constructor).
  destruct (ends_missing_spec z nodataz Hne) as (ends & Hends & Hends_iff).
  assert (Hbase : ∃ base n,
             fill_list_ends z nodataz = Ok (Some (base, n))
             ∧ (ends = false → base = z)
             ∧ length base = length z
             ∧ valid_at base nodataz 0 ∧ valid_at base nodataz (length base - 1)).
  { destruct ends.
    - destruct (fill_list_ends_spec z nodataz) as (f & t & base & _ & _ & Hrun & Hl & _);
        [apply not_all_invalid, Hnall|].
      destruct (filled_ends_valid _ _ _ _ Hrun) as [H0 Hl'].
      eexists base, _. split; [exact Hrun|]. split; [discriminate|]. split; [exact Hl|].
      rewrite Hl. auto.
    - destruct (proj1 Hends_iff eq_refl) as [H0 Hl].
      exists z, 0%Z. split; [apply fill_list_ends_valid_ends; assumption|]. auto. }
  destruct Hbase as (base & n & Hfill & Hsame & Hbl & H0 & Hl).
  exists base, n, ends. split; [exact Hfill|]. split; [exact Hends|].
  split; [exact Hsame|]. split; [exact Hbl|]. split; [exact H0|]. split; [exact Hl|].
  assert (Hdl : length (cumulated_dist segs) = length base)
    by (rewrite length_cumulated_dist; lia).
  pose proof (vertex_loop_reset (cumulated_dist segs) base nodataz previous Hdl H0 Hl)
    as Hloop.
  pose proof (interpolate_missing_z_spec (cumulated_dist segs) base nodataz Hdl H0 Hl)
    as Hspec.
  unfold process_line.
  rewrite (proj2 (contains_invalid_iff z nodataz) Hin). simpl.
  destruct (forallb (λ e, py_eq e nodataz) z) eqn:Hall.
  { apply all_invalid_iff in Hall. contradiction. }
  rewrite Hends. simpl.
  assert (Hstage :
    (if ends
     then fill_checked z nodataz ≫= (λ '(base, n), inr (base, Some n))
     else inr (z, None))
    = (inr (base, if ends then Some n else None) : line_exn + (list float * option Z))).
  { destruct ends.
    - unfold fill_checked. rewrite Hfill. simpl.
      rewrite decide_False by (intros Hc; apply Hc, Hbl). reflexivity.
    - rewrite (Hsame eq_refl). reflexivity. }
  rewrite Hstage. simpl.
  destruct (for_each _ _ (reset_locals previous)) as [st|e]; simpl in *.
  - rewrite <- Hloop in Hspec. destruct Hspec as [Hout _].
    rewrite decide_False by (intros Hc; apply Hc, Hout).
    rewrite Hbl. auto.
  - rewrite <- Hloop in Hspec. destruct Hspec as [-> _]. auto.
Qed.

Lemma process_line_no_missing previous (z segs : list float) (nodataz : float) :
  Forall (valid nodataz) z →
  process_line previous z segs nodataz = inr (LeftUnchangedNoMissing, previous).
Proof.
  intros Hall. unfold process_line.
  rewrite (proj2 (no_invalid_iff z nodataz) Hall). reflexivity.
Qed.

Lemma process_line_missing_only previous (z segs : list float) (nodataz : float) :
  z ≠ [] → Forall (invalid nodataz) z →
  process_line previous z segs nodataz = inr (LeftUnchangedMissingOnly, previous).
Proof.
  intros Hne Hall. unfold process_line.
  assert (Hin : Exists (invalid nodataz) z).
  { destruct z as [|x z']; [congruence|].
    apply Forall_cons in Hall as [Hx _]. apply Exists_cons. auto. }
  rewrite (proj2 (contains_invalid_iff z nodataz) Hin). simpl.
  rewrite (proj2 (all_invalid_iff z nodataz) Hall). reflexivity.
Qed.

(** The three outcomes of a line, and its only exception. *)
Lemma process_line_cases previous (z segs : list float) (nodataz : float) :
  length segs = length z - 1 →
  (Forall (valid nodataz) z
   ∧ process_line previous z segs nodataz = inr (LeftUnchangedNoMissing, previous))
  ∨ (z ≠ [] ∧ Forall (invalid nodataz) z
     ∧ process_line previous z segs nodataz = inr (LeftUnchangedMissingOnly, previous))
  ∨ (Exists (invalid nodataz) z ∧ ¬ Forall (invalid nodataz) z
     ∧ ∃ base n ends,
         fill_list_ends z nodataz = Ok (Some (base, n))
         ∧ ends_missing z nodataz = Ok ends
         ∧ (ends = false → base = z)
         ∧ length base = length z
         ∧ valid_at base nodataz 0 ∧ valid_at base nodataz (length base - 1)
         ∧ match process_line previous z segs nodataz with
           | inr (out, st) =>
               interpolate_missing_z (cumulated_dist segs) base nodataz = Ok (new_zs st)
               ∧ out = Interpolated (if ends then Some n else None)
                                    (py_count nodataz base) (length z) (new_zs st)
           | inl e =>
               e = PyExn ZeroDivisionError
               ∧ interpolate_missing_z (cumulated_dist segs) base nodataz
                 = Raise ZeroDivisionError
           end).
Proof.
  intros Hgeo.
  destruct (existsb (λ e, py_eq e nodataz) z) eqn:Hin.
  2:{ apply no_invalid_iff in Hin. left.
      split; [exact Hin | apply process_line_no_missing, Hin]. }
  apply contains_invalid_iff in Hin.
  assert (Hne : z ≠ []) by (intros ->; apply Exists_nil in Hin; exact Hin).
  assert (Hlen : S (length segs) = length z).
  { destruct z; [congruence | simpl in *; lia]. }
  destruct (decide (Forall (invalid nodataz) z)) as [Hall|Hnall].
  { right. left. split; [exact Hne|]. split; [exact Hall|].
    apply process_line_missing_only; assumption. }
  right. right. split; [exact Hin|]. split; [exact Hnall|].
  apply process_line_interpolated; assumption.
Qed.

(** The outcome of a line does not depend on the locals left by the lines
    processed before. *)
Lemma process_line_previous previous previous' (z segs : list float) (nodataz : float) :
  length segs = length z - 1 →
  match process_line previous z segs nodataz,
        process_line previous' z segs nodataz with
  | inr (out, _), inr (out', _) => out = out'
  | inl e, inl e' => e = e'
  | _, _ => False
  end.
Proof.
  intros Hgeo.
  destruct (process_line_cases previous z segs nodataz Hgeo)
    as [[Hv ->]|[(Hne & Hall & ->)|(Hin & Hnall & _)]].
  { rewrite process_line_no_missing by exact Hv. reflexivity. }
  { rewrite process_line_missing_only by assumption. reflexivity. }
  assert (Hlen : S (length segs) = length z).
  { destruct z; [exfalso; apply Hnall; constructor | simpl in *; lia]. }
  destruct (process_line_interpolated previous z segs nodataz Hlen Hin Hnall)
    as (base & n & ends & Hfill & Hends & _ & _ & _ & _ & Hrun).
  destruct (process_line_interpolated previous' z segs nodataz Hlen Hin Hnall)
    as (base' & n' & ends' & Hfill' & Hends' & _ & _ & _ & _ & Hrun').
  assert (base' = base) as -> by congruence.
  assert (n' = n) as -> by congruence.
  assert (ends' = ends) as -> by congruence.
  destruct (process_line previous z segs nodataz) as [e|[out st]],
           (process_line previous' z segs nodataz) as [e'|[out' st']].
  - destruct Hrun as [-> _], Hrun' as [-> _]. reflexivity.
  - destruct Hrun as [_ Hr], Hrun' as [Hr' _]. congruence.
  - destruct Hrun as [Hr _], Hrun' as [_ Hr']. congruence.
  - destruct Hrun as [Hr ->], Hrun' as [Hr' ->]. f_equal. congruence.
Qed.

(** Without cancellation, the feature loop gives every line the Z values it
    would get alone, in the order of the lines, and fails when one of the
    lines fails alone. *)
Lemma process_features_spec is_canceled nodataz features :
  (∀ current, is_canceled current = false) →
  Forall line_geometry features.*2 →
  ∀ previous sink,
    match process_features is_canceled nodataz features previous sink with
    | inr sink' => ∃ zss, sink' = sink ++ zss
                          ∧ Forall2 (λ f zs, line_alone nodataz f = inr zs)
                                    features.*2 zss
    | inl e => ∃ f, f ∈ features.*2 ∧ line_alone nodataz f = inl e
    end.
Proof.
  intros Hnc. induction features as [|[current f] features IH]; intros Hgeo previous sink.
  - simpl. exists []. split; [symmetry; apply app_nil_r | constructor].
  - simpl in Hgeo. apply Forall_cons in Hgeo as [Hf Hgeo].
    simpl. rewrite Hnc.
    pose proof (process_line_previous previous (Locals 0 None None None None [])
                  (z_values f) (seg_lengths_of f) nodataz Hf) as Hsame.
    remember (process_line previous (z_values f) (seg_lengths_of f) nodataz) as r eqn:Hr.
    remember (process_line (Locals 0 None None None None []) (z_values f)
                (seg_lengths_of f) nodataz) as r' eqn:Halone.
    destruct r as [e|[out st]], r' as [e'|[out' st']]; try contradiction; simpl.
    + subst e'. exists f. split; [apply elem_of_cons; auto|].
      unfold line_alone. rewrite <- Halone. reflexivity.
    + subst out'. specialize (IH Hgeo st (sink ++ [sink_z_values f out])).
      destruct (process_features is_canceled nodataz features st _) as [e|sink'].
      * destruct IH as (f' & Hin & Hf'). exists f'.
        split; [apply elem_of_cons; auto | exact Hf'].
      * destruct IH as (zss & -> & Hall). exists (sink_z_values f out :: zss).
        split; [rewrite <- app_assoc; reflexivity|].
        constructor; [|exact Hall]. unfold line_alone. rewrite <- Halone. reflexivity.
Qed.

Lemma snd_zip_same {A B : Type} (l : list A) (k : list B) :
  length l = length k → (zip l k).*2 = k.
Proof. intros Hlen. apply snd_zip. lia. Qed.

(** The only exception of a line is the division by zero. *)
Lemma process_line_exception previous (z segs : list float) (nodataz : float) e :
  length segs = length z - 1 →
  process_line previous z segs nodataz = inl e →
  e = PyExn ZeroDivisionError
  ∧ ∃ base n, fill_list_ends z nodataz = Ok (Some (base, n))
              ∧ valid_at base nodataz 0 ∧ valid_at base nodataz (length base - 1)
              ∧ length base = length z
              ∧ interpolate_missing_z (cumulated_dist segs) base nodataz
                = Raise ZeroDivisionError.
Proof.
  intros Hgeo Hrun.
  destruct (process_line_cases previous z segs nodataz Hgeo)
    as [[_ Heq]|[(_ & _ & Heq)|(_ & _ & base & n & ends & Hfill & _ & _ & Hbl & H0 & Hl & Hm)]];
    [congruence | congruence |].
  rewrite Hrun in Hm. destruct Hm as [-> Hdiv]. split; [reflexivity|].
  exists base, n. auto.
Qed.

(** The outcome of a line that is interpolated. *)
Lemma process_line_outcome previous (z segs : list float) (nodataz : float)
    nf cm cv new_zs st :
  length segs = length z - 1 →
  process_line previous z segs nodataz = inr (Interpolated nf cm cv new_zs, st) →
  ∃ base n ends,
    fill_list_ends z nodataz = Ok (Some (base, n))
    ∧ ends_missing z nodataz = Ok ends
    ∧ (ends = false → base = z)
    ∧ length base = length z
    ∧ valid_at base nodataz 0 ∧ valid_at base nodataz (length base - 1)
    ∧ interpolate_missing_z (cumulated_dist segs) base nodataz = Ok new_zs
    ∧ nf = (if ends then Some n else None)
    ∧ cm = py_count nodataz base ∧ cv = length z.
Proof.
  intros Hgeo Hrun.
  destruct (process_line_cases previous z segs nodataz Hgeo)
    as [[_ Heq]|[(_ & _ & Heq)|(_ & _ & base & n & ends & Hfill & He & Hs & Hbl & H0 & Hl & Hm)]];
    [congruence | congruence |].
  rewrite Hrun in Hm. destruct Hm as [Hloop [= -> -> -> ->]].
  exists base, n, ends. repeat (split; [assumption || reflexivity|]). reflexivity.
Qed.

Lemma length_new_zs_of_line (z segs base new_zs : list float) (nodataz : float) :
  length segs = length z - 1 → length base = length z → valid_at base nodataz 0 →
  interpolate_missing_z (cumulated_dist segs) base nodataz = Ok new_zs →
  length (cumulated_dist segs) = length base ∧ length new_zs = length z.
Proof.
  intros Hgeo Hbl H0 Hloop. pose proof (valid_at_lt _ _ _ H0) as Hpos.
  assert (Hdl : length (cumulated_dist segs) = length base)
    by (rewrite length_cumulated_dist; lia).
  split; [exact Hdl|]. rewrite <- Hbl. eapply length_interpolated; eassumption.
Qed.

(** The feature added to the sink has the vertices of the line: no point is
    lost in [zip(line, new_zs)]. *)
Lemma process_line_vertex_count previous (z segs : list float) (nodataz : float) out st :
  length segs = length z - 1 →
  process_line previous z segs nodataz = inr (out, st) →
  length (sink_z_values (Feature z segs) out) = length z.
Proof.
  intros Hgeo Hrun.
  destruct out as [| |nf cm cv new_zs]; [reflexivity | reflexivity |].
  destruct (process_line_outcome _ _ _ _ _ _ _ _ _ Hgeo Hrun)
    as (base & n & ends & _ & _ & _ & Hbl & H0 & _ & Hloop & _).
  destruct (length_new_zs_of_line z segs base new_zs nodataz Hgeo Hbl H0 Hloop)
    as [_ Hnl].
  simpl. rewrite snd_zip_same by (symmetry; exact Hnl). exact Hnl.
Qed.

(** The valid values of a line are written to the sink as they are. *)
Lemma process_line_keeps_valid previous (z segs : list float) (nodataz : float) out st :
  length segs = length z - 1 →
  process_line previous z segs nodataz = inr (out, st) →
  ∀ i v, z !! i = Some v → valid nodataz v →
         sink_z_values (Feature z segs) out !! i = Some v.
Proof.
  intros Hgeo Hrun i v Hv Hne.
  destruct out as [| |nf cm cv new_zs]; [exact Hv | exact Hv |].
  destruct (process_line_outcome _ _ _ _ _ _ _ _ _ Hgeo Hrun)
    as (base & n & ends & Hfill & _ & _ & Hbl & H0 & Hl & Hloop & _).
  destruct (length_new_zs_of_line z segs base new_zs nodataz Hgeo Hbl H0 Hloop)
    as [Hdl Hnl].
  simpl. rewrite snd_zip_same by (symmetry; exact Hnl).
  apply (interpolate_keeps_valid _ _ _ _ Hdl H0 Hl Hloop).
  - apply (filled_keeps_valid _ _ _ _ Hfill); assumption.
  - exact Hne.
Qed.

(** The numbers given in the messages of a line. *)
Lemma process_line_counts previous (z segs : list float) (nodataz : float)
    nf cm cv new_zs st :
  length segs = length z - 1 →
  process_line previous z segs nodataz = inr (Interpolated nf cm cv new_zs, st) →
  cv = length z ∧ length new_zs = length z
  ∧ (from_option id 0 nf + Z.of_nat cm = Z.of_nat (py_count nodataz z))%Z
  ∧ (nf = None ↔ valid_at z nodataz 0 ∧ valid_at z nodataz (length z - 1)).
Proof.
  intros Hgeo Hrun.
  destruct (process_line_outcome _ _ _ _ _ _ _ _ _ Hgeo Hrun)
    as (base & n & ends & Hfill & Hends & Hsame & Hbl & H0 & Hl & Hloop & -> & -> & ->).
  destruct (length_new_zs_of_line z segs base new_zs nodataz Hgeo Hbl H0 Hloop)
    as [_ Hnl].
  split; [reflexivity|]. split; [exact Hnl|].
  pose proof (fill_list_ends_count _ _ _ _ Hfill) as Hcount.
  assert (Hne : z ≠ []).
  { intros ->. pose proof (valid_at_lt _ _ _ H0). simpl in Hbl. lia. }
  destruct (ends_missing_spec z nodataz Hne) as (ends' & Hends' & Hiff).
  assert (ends' = ends) as -> by congruence.
  destruct ends; simpl.
  - split; [lia|]. split; [discriminate|]. intros Hv. apply Hiff in Hv. discriminate.
  - assert (n = 0%Z) as ->.
    { destruct (proj1 Hiff eq_refl) as [Hz0 Hzl].
      pose proof (fill_list_ends_valid_ends z nodataz Hz0 Hzl). congruence. }
    split; [lia|]. split; [intros _; apply Hiff; reflexivity | reflexivity].
Qed.

Lemma line_alone_length (nodataz : float) (f : feature) zs :
  line_geometry f → line_alone nodataz f = inr zs → length zs = length (z_values f).
Proof.
  intros Hgeo. destruct f as [z segs]. unfold line_alone. simpl in *.
  destruct (process_line (Locals 0 None None None None []) z segs nodataz)
    as [e|[out st]] eqn:Hrun; simpl; [discriminate|].
  intros [= <-]. eapply process_line_vertex_count; eassumption.
Qed.

Lemma snd_enumerate_from {A : Type} (l : list A) :
  ∀ n, (enumerate_from n l).*2 = l.
Proof. induction l as [|x l IH]; intros n; simpl; [reflexivity | f_equal; apply IH]. Qed.

(** Cancellation stops the loop before the line at which it is seen: the
    lines from there on are not read. *)
Lemma process_features_canceled is_canceled nodataz (f : feature) post pre :
  ∀ n previous sink,
    is_canceled (n + length pre) = true →
    process_features is_canceled nodataz (enumerate_from n (pre ++ f :: post))
                     previous sink
    = process_features is_canceled nodataz (enumerate_from n pre) previous sink.
Proof.
  induction pre as [|g pre IH]; intros n previous sink Hc; simpl.
  - rewrite Nat.add_0_r in Hc. rewrite Hc. reflexivity.
  - destruct (is_canceled n); [reflexivity|].
    destruct (process_line previous (z_values g) (seg_lengths_of g) nodataz)
      as [e|[out st]]; simpl; [reflexivity|].
    apply IH. rewrite <- Hc. f_equal. simpl. lia.
Qed.

Lemma Forall2_impl_elem_of {A B : Type} (P Q : A → B → Prop) (l : list A) (k : list B) :
  Forall2 P l k → (∀ x y, x ∈ l → P x y → Q x y) → Forall2 Q l k.
Proof.
  induction 1 as [|x y l k Hxy _ IH]; intros Himp; constructor.
  - apply Himp; [apply elem_of_cons; auto | exact Hxy].
  - apply IH. intros x' y' Hin. apply Himp, elem_of_cons. auto.
Qed.

(** * Part 4: the claims *)

(** C1, amended: when the first and the last value are valid, the distance
    list has the length of the value list and holds doubles, and no missing
    index has its two anchors at the same finite distance, the interpolator
    returns a list that keeps every valid value and holds, at every missing
    index [i], the float [zj + (zk - zj) * (di - dj) / (dk - dj)], computed
    in this order in double precision, for the backward anchor [j] and the
    forward anchor [k] of [i].  Separated runs use their own anchors: values
    [5, 0, 0, 15, 0, 25] at distances [0, 1, 2, 3, 4, 5] give
    [5, 8.333333333333334, 11.666666666666668, 15, 20, 25], where the two
    interpolated floats are 4691249611844267 / 2^49 and
    6567749456581974 / 2^49. *)
Theorem C1_interior_interpolation :
  (∀ (dist values : list float) (sentinel : float),
     length dist = length values →
     valid_at values sentinel 0 →
     valid_at values sentinel (length values - 1) →
     doubles dist →
     anchors_apart dist values sentinel →
     ∃ out,
       interpolate_missing_z dist values sentinel = Ok out
       ∧ length out = length values
       ∧ (∀ i v, values !! i = Some v → valid sentinel v → out !! i = Some v)
       ∧ (∀ i j k zj zk dj dk di,
            invalid_at values sentinel i →
            backward_anchor values sentinel i j →
            forward_anchor values sentinel i k →
            values !! j = Some zj → values !! k = Some zk →
            dist !! j = Some dj → dist !! k = Some dk → dist !! i = Some di →
            out !! i = Some (zj + (zk - zj) * (di - dj) / (dk - dj))%F))
  ∧ interpolate_missing_z (of_int <$> [0; 1; 2; 3; 4; 5]%Z)
                          (of_int <$> [5; 0; 0; 15; 0; 25]%Z) (of_int 0)
    = Ok [of_int 5; S754_finite false 4691249611844267 (-49);
          S754_finite false 6567749456581974 (-49); of_int 15; of_int 20; of_int 25].
Proof.
  split; [|vm_compute; reflexivity].
  intros dist values sentinel Hlen Hfirst Hlast Hdoubles Hapart.
  destruct (interpolate_missing_z_total dist values sentinel Hlen Hfirst Hlast
              (anchors_apart_no_zero_divisor _ _ _ Hdoubles Hapart))
    as (out & Hrun & Hout & _).
  exists out. split; [exact Hrun|]. split; [exact Hout|]. split.
  - apply (interpolate_keeps_valid _ _ _ _ Hlen Hfirst Hlast Hrun).
  - intros i j k zj zk dj dk di Hi Hb Hf Hzj Hzk Hdj Hdk Hdi.
    apply (interpolate_fills_missing _ _ _ _ i j k zj zk dj dk di
             Hlen Hfirst Hlast Hrun Hi Hb Hf Hzj Hzk Hdj Hdk Hdi).
Qed.

Lemma C1_interior_interpolation_witness :
  ∃ out,
    interpolate_missing_z (of_int <$> [0; 1; 2]%Z) (of_int <$> [1; 0; 3]%Z) (of_int 0)
    = Ok out
    ∧ out = [of_int 1; of_int 2; of_int 3].
Proof.
  destruct (proj1 C1_interior_interpolation
              (of_int <$> [0; 1; 2]%Z) (of_int <$> [1; 0; 3]%Z) (of_int 0))
    as (out & Hrun & _).
  - reflexivity.
  - exists (of_int 1). split; reflexivity.
  - exists (of_int 3). split; reflexivity.
  - repeat constructor.
  - intros i (_ & j & k & dj & dk & (Hji & _ & _) & (Hik & Hvk & _) & Hdj & Hdk & Heq & _).
    pose proof (valid_at_lt _ _ _ Hvk) as Hk. rewrite length_fmap in Hk. simpl in Hk.
    destruct k as [|[|[|k]]]; [lia| | |lia];
      destruct j as [|[|j]]; try lia;
      injection Hdj as <-; injection Hdk as <-; discriminate Heq.
  - exists out. split; [exact Hrun|].
    vm_compute in Hrun. injection Hrun as <-. vm_compute. reflexivity.
Defined.

(** C1 as stated, for every distance list of the right length, fails: on a
    line whose last three vertices coincide, the values
    [5, 0, 0, 15, 0, 25] at distances [0, 1, 2, 3, 3, 3] satisfy the
    precondition and the interpolator returns no list, because index 4 has
    both anchors at distance 3. *)
Lemma C1_counterexample :
  length (of_int <$> [0; 1; 2; 3; 3; 3]%Z) = length (of_int <$> [5; 0; 0; 15; 0; 25]%Z)
  ∧ valid_at (of_int <$> [5; 0; 0; 15; 0; 25]%Z) (of_int 0) 0
  ∧ valid_at (of_int <$> [5; 0; 0; 15; 0; 25]%Z) (of_int 0) 5
  ∧ interpolate_missing_z (of_int <$> [0; 1; 2; 3; 3; 3]%Z)
                          (of_int <$> [5; 0; 0; 15; 0; 25]%Z) (of_int 0)
    = Raise ZeroDivisionError.
Proof.
  split; [reflexivity|]. split; [|split].
  - exists (of_int 5). split; reflexivity.
  - exists (of_int 25). split; reflexivity.
  - vm_compute. reflexivity.
Qed.



(** C3, amended: when a missing index has its backward and its forward
    anchor at distances that are equal and finite, the interpolator returns
    no value: the division raises [ZeroDivisionError], the failure of the
    degenerate segment.  The failure is distinct: under the precondition of
    the interpolator it is the only exception of the loop, it is raised only
    for a missing index whose divisor is a zero, and with distances that are
    doubles only for a missing index whose anchors are at the same finite
    distance. *)
Theorem C3_degenerate_segment :
  (∀ (dist values : list float) (sentinel : float) (i j k : nat) (dj dk : float),
     length dist = length values →
     valid_at values sentinel 0 →
     valid_at values sentinel (length values - 1) →
     invalid_at values sentinel i →
     backward_anchor values sentinel i j →
     forward_anchor values sentinel i k →
     dist !! j = Some dj → dist !! k = Some dk →
     py_eq dk dj = true → is_finite dj = true →
     interpolate_missing_z dist values sentinel = Raise ZeroDivisionError)
  ∧ (∀ (dist values : list float) (sentinel : float) (e : exn),
       length dist = length values →
       valid_at values sentinel 0 →
       valid_at values sentinel (length values - 1) →
       interpolate_missing_z dist values sentinel = Raise e →
       e = ZeroDivisionError
       ∧ (∃ i, zero_divisor_at dist values sentinel i)
       ∧ (doubles dist → ∃ i, degenerate_at dist values sentinel i)).
Proof.
  split.
  - intros dist values sentinel i j k dj dk Hlen Hfirst Hlast Hv Hb Hf Hdj Hdk Heq Hfin.
    apply (interpolate_missing_z_degenerate dist values sentinel i Hlen Hfirst Hlast).
    split; [exact Hv|]. exists j, k, dj, dk. auto 10.
  - intros dist values sentinel e Hlen Hfirst Hlast Hrun.
    pose proof (interpolate_missing_z_spec dist values sentinel Hlen Hfirst Hlast) as Hspec.
    rewrite Hrun in Hspec. destruct Hspec as (-> & i & Hi).
    split; [reflexivity|]. split; [exists i; exact Hi|].
    intros Hd. exists i. apply zero_divisor_degenerate; assumption.
Qed.

Lemma C3_degenerate_segment_witness :
  interpolate_missing_z (of_int <$> [0; 0; 0]%Z) (of_int <$> [1; 0; 3]%Z) (of_int 0)
  = Raise ZeroDivisionError.
Proof.
  apply (proj1 C3_degenerate_segment
           (of_int <$> [0; 0; 0]%Z) (of_int <$> [1; 0; 3]%Z) (of_int 0) 1 0 2
           (of_int 0) (of_int 0)).
  - reflexivity.
  - exists (of_int 1). split; reflexivity.
  - exists (of_int 3). split; reflexivity.
  - exists (of_int 0). split; reflexivity.
  - split; [lia|]. split; [exists (of_int 1); split; reflexivity|].
    intros m Hm. assert (m = 1) as -> by lia. exists (of_int 0). split; reflexivity.
  - split; [lia|]. split; [exists (of_int 3); split; reflexivity|].
    intros m Hm. lia.
  - reflexivity.
  - reflexivity.
  - reflexivity.
  - reflexivity.
Defined.

(** C3 as stated, for every pair of equal anchor distances, fails: on the
    values [1, 2, 0, 3] at the distances [0, inf, inf, inf] the missing
    index 2 has its anchors 1 and 3 at the same distance, and the
    interpolator raises nothing: [inf - inf] is NaN, which is not zero, and
    the list returned holds NaN at index 2. *)
Lemma C3_counterexample :
  length [zero; inf; inf; inf] = length (of_int <$> [1; 2; 0; 3]%Z)
  ∧ doubles [zero; inf; inf; inf]
  ∧ valid_at (of_int <$> [1; 2; 0; 3]%Z) (of_int 0) 0
  ∧ valid_at (of_int <$> [1; 2; 0; 3]%Z) (of_int 0) 3
  ∧ invalid_at (of_int <$> [1; 2; 0; 3]%Z) (of_int 0) 2
  ∧ backward_anchor (of_int <$> [1; 2; 0; 3]%Z) (of_int 0) 2 1
  ∧ forward_anchor (of_int <$> [1; 2; 0; 3]%Z) (of_int 0) 2 3
  ∧ [zero; inf; inf; inf] !! 1 = Some inf
  ∧ [zero; inf; inf; inf] !! 3 = Some inf
  ∧ py_eq inf inf = true
  ∧ interpolate_missing_z [zero; inf; inf; inf] (of_int <$> [1; 2; 0; 3]%Z) (of_int 0)
    = Ok [of_int 1; of_int 2; nan; of_int 3].
Proof.
  split; [reflexivity|].
  split; [repeat constructor|].
  split; [exists (of_int 1); split; reflexivity|].
  split; [exists (of_int 3); split; reflexivity|].
  split; [exists (of_int 0); split; reflexivity|].
  split.
  { split; [lia|]. split; [exists (of_int 2); split; reflexivity|].
    intros m Hm. assert (m = 2) as -> by lia. exists (of_int 0). split; reflexivity. }
  split.
  { split; [lia|]. split; [exists (of_int 3); split; reflexivity|].
    intros m Hm. lia. }
  split; [reflexivity|]. split; [reflexivity|]. split; [reflexivity|].
  vm_compute. reflexivity.
Qed.







(** C7: when the last value is valid, the forward search that starts at
    [i + 1] for a missing index [i] stops on a valid index inside the list,
    the forward anchor of [i], so that it never reads past the end; the
    interpolator, under its precondition, never raises [IndexError]. *)
Theorem C7_forward_scan_in_bounds :
  (∀ (values : list float) (sentinel : float) (i : nat),
     valid_at values sentinel (length values - 1) →
     invalid_at values sentinel i →
     ∃ k, while_invalid values sentinel (S i) = Ok k
          ∧ i < k < length values
          ∧ forward_anchor values sentinel i k)
  ∧ (∀ (dist values : list float) (sentinel : float),
       length dist = length values →
       valid_at values sentinel 0 →
       valid_at values sentinel (length values - 1) →
       interpolate_missing_z dist values sentinel ≠ Raise IndexError).
Proof.
  split.
  - intros values sentinel i. apply forward_scan_finds.
  - intros dist values sentinel Hlen Hfirst Hlast Hrun.
    pose proof (interpolate_missing_z_spec dist values sentinel Hlen Hfirst Hlast) as Hspec.
    rewrite Hrun in Hspec. destruct Hspec as [Habs _]. discriminate Habs.
Qed.

Lemma C7_forward_scan_in_bounds_witness :
  ∃ k, while_invalid (of_int <$> [5; 0; 0; 15; 0; 25]%Z) (of_int 0) 2 = Ok k
       ∧ 1 < k < length (of_int <$> [5; 0; 0; 15; 0; 25]%Z)
       ∧ forward_anchor (of_int <$> [5; 0; 0; 15; 0; 25]%Z) (of_int 0) 1 k.
Proof.
  apply (proj1 C7_forward_scan_in_bounds (of_int <$> [5; 0; 0; 15; 0; 25]%Z) (of_int 0) 1).
  - exists (of_int 25). split; reflexivity.
  - exists (of_int 0). split; reflexivity.
Defined.







(** * Part 5: further properties of the code *)










(** X6: [interpolate_z] raises [ZeroDivisionError] exactly when the float
    [d_end - d_start] is a zero, and raises nothing else; between doubles,
    that is exactly when [d_end == d_start] and they are finite.  It never
    raises when [d_start] or [d_end] is infinite or NaN: two points at the
    same infinite [d] give NaN without any exception.  At [d_start], when
    [z_end - z_start] does not overflow and the divisor is neither a zero
    nor NaN, it returns a float equal to [z_start]. *)
Theorem X6_interpolate_z_zero_divisor (d_target d_start d_end z_start z_end : float) :
  (∀ e, interpolate_z d_target d_start d_end z_start z_end = Raise e →
        e = ZeroDivisionError ∧ py_eq (d_end - d_start)%F zero = true)
  ∧ (py_eq (d_end - d_start)%F zero = true →
     interpolate_z d_target d_start d_end z_start z_end = Raise ZeroDivisionError)
  ∧ (is_double d_start = true → is_double d_end = true →
     (interpolate_z d_target d_start d_end z_start z_end = Raise ZeroDivisionError
      ↔ py_eq d_end d_start = true ∧ is_finite d_start = true))
  ∧ (is_finite d_start = false ∨ is_finite d_end = false →
     ∃ z, interpolate_z d_target d_start d_end z_start z_end = Ok z)
  ∧ (py_eq d_end d_start = true → is_finite d_start = false →
     interpolate_z d_target d_start d_end z_start z_end = Ok nan)
  ∧ (is_finite d_start = true → is_finite (z_end - z_start)%F = true →
     py_eq (d_end - d_start)%F zero = false → (d_end - d_start)%F ≠ nan →
     ∃ z, interpolate_z d_start d_start d_end z_start z_end = Ok z
          ∧ py_eq z z_start = true).
Proof.
  rewrite !interpolate_z_spec. split; [|split; [|split; [|split; [|split]]]].
  - intros e. destruct (py_eq (d_end - d_start)%F zero); [|discriminate].
    intros [= <-]. auto.
  - intros ->. reflexivity.
  - intros Hs He. pose proof (fsub_zero_iff d_end d_start He Hs) as Hiff.
    destruct (py_eq (d_end - d_start)%F zero).
    + destruct (proj1 Hiff eq_refl) as [Heq Hf]. split; [intros _|reflexivity].
      split; [exact Heq|]. rewrite <- (py_eq_is_finite _ _ Heq). exact Hf.
    + split; [discriminate|]. intros [Heq Hf]. exfalso.
      assert (Habs : false = true); [|discriminate Habs].
      apply Hiff. split; [exact Heq|]. rewrite (py_eq_is_finite _ _ Heq). exact Hf.
  - intros [Hs|He].
    + rewrite (fsub_not_finite_r _ _ Hs). eauto.
    + rewrite (fsub_not_finite_l _ _ He). eauto.
  - intros Heq Hfin. rewrite (fsub_not_finite_r _ _ Hfin).
    unfold between. rewrite (fsub_equal_not_finite d_end d_start Heq).
    + rewrite fdiv_nan_r, fadd_nan_r. reflexivity.
    + rewrite (py_eq_is_finite _ _ Heq). exact Hfin.
  - intros Hd Hz Hne Hnan. rewrite Hne. eexists. split; [reflexivity|].
    apply between_start; assumption.
Qed.

Lemma X6_interpolate_z_zero_divisor_witness :
  interpolate_z (of_int 1) (of_int 2) (of_int 2) (of_int 5) (of_int 9)
  = Raise ZeroDivisionError
  ∧ interpolate_z (of_int 1) inf inf (of_int 5) (of_int 9) = Ok nan
  ∧ ∃ z, interpolate_z (of_int 0) (of_int 0) (of_int 2) (of_int 5) (of_int 9) = Ok z
         ∧ py_eq z (of_int 5) = true.
Proof.
  split; [|split].
  - apply (proj2 (proj1 (proj2 (proj2
             (X6_interpolate_z_zero_divisor (of_int 1) (of_int 2) (of_int 2)
                                            (of_int 5) (of_int 9))))
             eq_refl eq_refl)).
    split; reflexivity.
  - apply (proj1 (proj2 (proj2 (proj2 (proj2
             (X6_interpolate_z_zero_divisor (of_int 1) inf inf (of_int 5) (of_int 9)))))));
      reflexivity.
  - apply (proj2 (proj2 (proj2 (proj2 (proj2
             (X6_interpolate_z_zero_divisor (of_int 0) (of_int 0) (of_int 2)
                                            (of_int 5) (of_int 9)))))));
      [reflexivity | reflexivity | reflexivity | discriminate].
Defined.

(** X8: on values without a missing value the vertex loop returns the values
    as they are, whatever the distances. *)
Theorem X8_loop_without_missing (dist base_z_values : list float) (nodataz : float) :
  length dist = length base_z_values →
  Forall (valid nodataz) base_z_values →
  interpolate_missing_z dist base_z_values nodataz = Ok base_z_values.
Proof. apply interpolate_missing_z_no_missing. Qed.

Lemma X8_loop_without_missing_witness :
  interpolate_missing_z (of_int <$> [0; 0; 7]%Z) (of_int <$> [1; 2; 3]%Z) (of_int 0)
  = Ok (of_int <$> [1; 2; 3]%Z).
Proof.
  apply (X8_loop_without_missing (of_int <$> [0; 0; 7]%Z) (of_int <$> [1; 2; 3]%Z)
                                 (of_int 0)).
  - reflexivity.
  - repeat constructor.
Defined.

(** X9: when the last value is missing, the vertex loop never returns a
    list: at the latest on the last vertex, the search for the end of
    interpolation reads past the end of the values. *)
Theorem X9_loop_last_missing (dist base_z_values : list float) (nodataz : float) :
  length dist = length base_z_values →
  (∃ z, last base_z_values = Some z ∧ invalid nodataz z) →
  ∃ e, interpolate_missing_z dist base_z_values nodataz = Raise e.
Proof. apply interpolate_missing_z_last_missing. Qed.

Lemma X9_loop_last_missing_witness :
  ∃ e, interpolate_missing_z (of_int <$> [0; 1; 2]%Z) (of_int <$> [1; 2; 0]%Z) (of_int 0)
       = Raise e.
Proof.
  apply (X9_loop_last_missing (of_int <$> [0; 1; 2]%Z) (of_int <$> [1; 2; 0]%Z) (of_int 0)).
  - reflexivity.
  - exists (of_int 0). split; reflexivity.
Defined.

(** X10: the vertex loop of a line whose two end values are valid never
    reads what the lines processed before have left in [start_interp_z],
    [start_interp_dist], [end_interp_z] and [end_interp_dist]: started with
    these locals, it computes the values, or raises the exception, that it
    computes when they are unset. *)
Theorem X10_loop_ignores_previous_locals (dist base_z_values : list float)
    (nodataz : float) (previous : locals) :
  length dist = length base_z_values →
  valid_at base_z_values nodataz 0 →
  valid_at base_z_values nodataz (length base_z_values - 1) →
  (st ← for_each (vertex_step dist base_z_values nodataz)
                 (enumerate (zip dist base_z_values)) (reset_locals previous);
   Ok (new_zs st))
  = interpolate_missing_z dist base_z_values nodataz.
Proof. apply vertex_loop_reset. Qed.

Lemma X10_loop_ignores_previous_locals_witness :
  (st ← for_each (vertex_step (of_int <$> [0; 1; 2]%Z) (of_int <$> [1; 0; 3]%Z) (of_int 0))
                 (enumerate (zip (of_int <$> [0; 1; 2]%Z) (of_int <$> [1; 0; 3]%Z)))
                 (reset_locals (Locals 7 (Some (of_int 8)) (Some (of_int 9))
                                       (Some (of_int 10)) (Some (of_int 11))
                                       [of_int 12]));
   Ok (new_zs st))
  = interpolate_missing_z (of_int <$> [0; 1; 2]%Z) (of_int <$> [1; 0; 3]%Z) (of_int 0).
Proof.
  apply (X10_loop_ignores_previous_locals
           (of_int <$> [0; 1; 2]%Z) (of_int <$> [1; 0; 3]%Z) (of_int 0)).
  - reflexivity.
  - exists (of_int 1). split; reflexivity.
  - exists (of_int 3). split; reflexivity.
Defined.

(** X12: the distances [[0] + accumulate(seg_lengths)] are one more than the
    segments and start at 0; the second one is the length of the first
    segment itself, and each later one is the float sum of the one before
    and the length of the segment. *)
Theorem X12_cumulated_dist (seg_lengths : list float) :
  length (cumulated_dist seg_lengths) = S (length seg_lengths)
  ∧ cumulated_dist seg_lengths !! 0 = Some zero
  ∧ cumulated_dist seg_lengths !! 1 = seg_lengths !! 0
  ∧ (∀ i d s, 0 < i →
              cumulated_dist seg_lengths !! i = Some d → seg_lengths !! i = Some s →
              cumulated_dist seg_lengths !! S i = Some (d + s)%F).
Proof.
  split; [apply length_cumulated_dist|]. split; [reflexivity|].
  split; [apply cumulated_dist_first | apply cumulated_dist_step].
Qed.

Lemma X12_cumulated_dist_witness :
  cumulated_dist (of_int <$> [3; 4; 5]%Z) !! 3 = Some (of_int 7 + of_int 5)%F.
Proof.
  apply (proj2 (proj2 (proj2 (X12_cumulated_dist (of_int <$> [3; 4; 5]%Z))))
           2 (of_int 7) (of_int 5)).
  - lia.
  - vm_compute. reflexivity.
  - reflexivity.
Defined.

(** X13: the body of the feature loop can only be left by the division by
    zero of [interpolate_z]: on a line with one segment length less than
    vertices, no [IndexError], no [UnboundLocalError], no [TypeError] from
    unpacking the result of [fill_list_ends], and neither of the two
    [QgsProcessingException] on the number of vertices is ever raised. *)
Theorem X13_line_only_fails_on_division (previous : locals)
    (original_z_values seg_lengths : list float) (nodataz : float) :
  length seg_lengths = length original_z_values - 1 →
  (∃ r, process_line previous original_z_values seg_lengths nodataz = inr r)
  ∨ process_line previous original_z_values seg_lengths nodataz
    = inl (PyExn ZeroDivisionError).
Proof.
  intros Hgeo.
  destruct (process_line previous original_z_values seg_lengths nodataz)
    as [e|r] eqn:Hrun; [right | left; eauto].
  destruct (process_line_exception _ _ _ _ _ Hgeo Hrun) as [-> _]. reflexivity.
Qed.

Lemma X13_line_only_fails_on_division_witness :
  (∃ r, process_line (Locals 0 None None None None [])
                     (of_int <$> [1; 0; 3]%Z) (of_int <$> [0; 0]%Z) (of_int 0) = inr r)
  ∨ process_line (Locals 0 None None None None [])
                 (of_int <$> [1; 0; 3]%Z) (of_int <$> [0; 0]%Z) (of_int 0)
    = inl (PyExn ZeroDivisionError).
Proof.
  apply (X13_line_only_fails_on_division (Locals 0 None None None None [])
           (of_int <$> [1; 0; 3]%Z) (of_int <$> [0; 0]%Z) (of_int 0)).
  reflexivity.
Defined.

(** X14: a line that is not refused keeps its vertices: the feature added
    to the sink has as many vertices as the line, so that
    [zip(line, new_zs)] drops no point. *)
Theorem X14_line_keeps_vertex_count (previous st : locals)
    (original_z_values seg_lengths : list float) (nodataz : float) (out : line_outcome) :
  length seg_lengths = length original_z_values - 1 →
  process_line previous original_z_values seg_lengths nodataz = inr (out, st) →
  length (sink_z_values (Feature original_z_values seg_lengths) out)
  = length original_z_values.
Proof. apply process_line_vertex_count. Qed.

Lemma X14_line_keeps_vertex_count_witness :
  ∃ out st,
    process_line (Locals 0 None None None None [])
                 (of_int <$> [0; 1; 0; 3; 0]%Z) (of_int <$> [1; 1; 1; 1]%Z) (of_int 0)
    = inr (out, st)
    ∧ length (sink_z_values (Feature (of_int <$> [0; 1; 0; 3; 0]%Z)
                                     (of_int <$> [1; 1; 1; 1]%Z)) out)
      = length (of_int <$> [0; 1; 0; 3; 0]%Z).
Proof.
  eexists _, _. split; [vm_compute; reflexivity|].
  eapply (X14_line_keeps_vertex_count (Locals 0 None None None None []) _
            (of_int <$> [0; 1; 0; 3; 0]%Z) (of_int <$> [1; 1; 1; 1]%Z) (of_int 0)).
  - reflexivity.
  - vm_compute. reflexivity.
Defined.

(** X15: whatever the outcome of a line, every valid Z value of the line is
    found unchanged, at its index, in the feature added to the sink. *)
Theorem X15_line_keeps_valid_values (previous st : locals)
    (original_z_values seg_lengths : list float) (nodataz : float) (out : line_outcome) :
  length seg_lengths = length original_z_values - 1 →
  process_line previous original_z_values seg_lengths nodataz = inr (out, st) →
  ∀ i v, original_z_values !! i = Some v → valid nodataz v →
         sink_z_values (Feature original_z_values seg_lengths) out !! i = Some v.
Proof. apply process_line_keeps_valid. Qed.

Lemma X15_line_keeps_valid_values_witness :
  ∃ out st,
    process_line (Locals 0 None None None None [])
                 (of_int <$> [0; 1; 0; 3]%Z) (of_int <$> [1; 1; 1]%Z) (of_int 0)
    = inr (out, st)
    ∧ sink_z_values (Feature (of_int <$> [0; 1; 0; 3]%Z) (of_int <$> [1; 1; 1]%Z)) out
      !! 3
      = Some (of_int 3).
Proof.
  eexists _, _. split; [vm_compute; reflexivity|].
  eapply (X15_line_keeps_valid_values (Locals 0 None None None None []) _
            (of_int <$> [0; 1; 0; 3]%Z) (of_int <$> [1; 1; 1]%Z) (of_int 0)).
  - reflexivity.
  - vm_compute. reflexivity.
  - reflexivity.
  - reflexivity.
Defined.

(** X16: the numbers of the messages of an interpolated line add up: the
    number of vertices is that of the line, there are as many new values,
    and the number of vertices filled at the ends (counted as 0 when the
    message is not given) plus the number of missing values reported as
    interpolated is the number of missing values of the line.  The message
    on the ends is left out exactly when both end values are valid. *)
Theorem X16_line_counts (previous st : locals)
    (original_z_values seg_lengths new_zs : list float) (nodataz : float)
    (no_filled_vertices : option Z) (count_missing_z count_vertices : nat) :
  length seg_lengths = length original_z_values - 1 →
  process_line previous original_z_values seg_lengths nodataz
  = inr (Interpolated no_filled_vertices count_missing_z count_vertices new_zs, st) →
  count_vertices = length original_z_values
  ∧ length new_zs = length original_z_values
  ∧ (from_option id 0 no_filled_vertices + Z.of_nat count_missing_z
     = Z.of_nat (py_count nodataz original_z_values))%Z
  ∧ (no_filled_vertices = None
     ↔ valid_at original_z_values nodataz 0
       ∧ valid_at original_z_values nodataz (length original_z_values - 1)).
Proof. apply process_line_counts. Qed.

Lemma X16_line_counts_witness :
  ∃ nf cm cv new_zs st,
    process_line (Locals 0 None None None None [])
                 (of_int <$> [0; 1; 0; 3; 0]%Z) (of_int <$> [1; 1; 1; 1]%Z) (of_int 0)
    = inr (Interpolated nf cm cv new_zs, st)
    ∧ cv = length (of_int <$> [0; 1; 0; 3; 0]%Z)
    ∧ length new_zs = length (of_int <$> [0; 1; 0; 3; 0]%Z)
    ∧ (from_option id 0 nf + Z.of_nat cm
       = Z.of_nat (py_count (of_int 0) (of_int <$> [0; 1; 0; 3; 0]%Z)))%Z
    ∧ (nf = None
       ↔ valid_at (of_int <$> [0; 1; 0; 3; 0]%Z) (of_int 0) 0
         ∧ valid_at (of_int <$> [0; 1; 0; 3; 0]%Z) (of_int 0)
                    (length (of_int <$> [0; 1; 0; 3; 0]%Z) - 1)).
Proof.
  eexists _, _, _, _, _. split; [vm_compute; reflexivity|].
  eapply (X16_line_counts (Locals 0 None None None None []) _
            (of_int <$> [0; 1; 0; 3; 0]%Z) (of_int <$> [1; 1; 1; 1]%Z) _ (of_int 0)).
  - reflexivity.
  - vm_compute. reflexivity.
Defined.

(** X18: the lines are processed independently.  Without cancellation, and
    with lines that have one segment length less than vertices, the feature
    loop adds to the sink, in the order of the lines, the Z values that each
    line gets when it is processed alone; it stops with an exception only
    when some line processed alone raises that exception. *)
Theorem X18_lines_processed_independently (is_canceled : nat → bool)
    (nodataz : float) (features : list feature) :
  (∀ current, is_canceled current = false) →
  Forall line_geometry features →
  match processAlgorithm_loop is_canceled nodataz features with
  | inr sink => Forall2 (λ f zs, line_alone nodataz f = inr zs) features sink
  | inl e => ∃ f, f ∈ features ∧ line_alone nodataz f = inl e
  end.
Proof.
  intros Hnc Hgeo. unfold processAlgorithm_loop.
  pose proof (process_features_spec is_canceled nodataz (enumerate features) Hnc) as H.
  unfold enumerate in *. rewrite snd_enumerate_from in H.
  specialize (H Hgeo (Locals 0 None None None None []) []).
  destruct (process_features _ _ _ _ _) as [e|sink]; [exact H|].
  destruct H as (zss & -> & Hall). exact Hall.
Qed.

Lemma X18_lines_processed_independently_witness :
  match processAlgorithm_loop (λ _, false) (of_int 0)
          [Feature (of_int <$> [1; 0; 3]%Z) (of_int <$> [1; 1]%Z);
           Feature (of_int <$> [0; 0; 4]%Z) (of_int <$> [1; 2]%Z)] with
  | inr sink =>
      Forall2 (λ f zs, line_alone (of_int 0) f = inr zs)
              [Feature (of_int <$> [1; 0; 3]%Z) (of_int <$> [1; 1]%Z);
               Feature (of_int <$> [0; 0; 4]%Z) (of_int <$> [1; 2]%Z)] sink
  | inl e =>
      ∃ f, f ∈ [Feature (of_int <$> [1; 0; 3]%Z) (of_int <$> [1; 1]%Z);
                Feature (of_int <$> [0; 0; 4]%Z) (of_int <$> [1; 2]%Z)]
           ∧ line_alone (of_int 0) f = inl e
  end.
Proof.
  apply (X18_lines_processed_independently (λ _, false) (of_int 0)
           [Feature (of_int <$> [1; 0; 3]%Z) (of_int <$> [1; 1]%Z);
            Feature (of_int <$> [0; 0; 4]%Z) (of_int <$> [1; 2]%Z)]).
  - reflexivity.
  - repeat constructor.
Defined.

(** X19: without cancellation, when the feature loop ends without
    exception, the sink holds one feature for each line, in order, each
    with as many vertices as its line. *)
Theorem X19_layer_keeps_vertex_counts (is_canceled : nat → bool)
    (nodataz : float) (features : list feature) (sink : list (list float)) :
  (∀ current, is_canceled current = false) →
  Forall line_geometry features →
  processAlgorithm_loop is_canceled nodataz features = inr sink →
  Forall2 (λ f zs, length zs = length (z_values f)) features sink.
Proof.
  intros Hnc Hgeo. unfold processAlgorithm_loop.
  pose proof (process_features_spec is_canceled nodataz (enumerate features) Hnc) as H.
  unfold enumerate in *. rewrite snd_enumerate_from in H.
  specialize (H Hgeo (Locals 0 None None None None []) []).
  intros Hrun. rewrite Hrun in H. destruct H as (zss & -> & Hall). simpl.
  rewrite Forall_forall in Hgeo.
  apply (Forall2_impl_elem_of _ _ _ _ Hall). intros f zs Hin Hzs.
  apply (line_alone_length nodataz f zs (Hgeo f Hin) Hzs).
Qed.

Lemma X19_layer_keeps_vertex_counts_witness :
  Forall2 (λ f zs, length zs = length (z_values f))
          [Feature (of_int <$> [1; 0; 3]%Z) (of_int <$> [1; 1]%Z);
           Feature (of_int <$> [0; 0; 4]%Z) (of_int <$> [1; 2]%Z)]
          [of_int <$> [1; 2; 3]%Z; of_int <$> [4; 4; 4]%Z].
Proof.
  apply (X19_layer_keeps_vertex_counts (λ _, false) (of_int 0)
           [Feature (of_int <$> [1; 0; 3]%Z) (of_int <$> [1; 1]%Z);
            Feature (of_int <$> [0; 0; 4]%Z) (of_int <$> [1; 2]%Z)]).
  - reflexivity.
  - repeat constructor.
  - vm_compute. reflexivity.
Defined.

(** X20: when the cancellation is seen at the iteration of a line, that
    line and the lines after it are not read: the result is that of the
    loop on the lines before. *)
Theorem X20_cancellation (is_canceled : nat → bool) (nodataz : float)
    (before after : list feature) (f : feature) :
  is_canceled (length before) = true →
  processAlgorithm_loop is_canceled nodataz (before ++ f :: after)
  = processAlgorithm_loop is_canceled nodataz before.
Proof.
  intros Hc. unfold processAlgorithm_loop, enumerate.
  apply process_features_canceled. exact Hc.
Qed.

Lemma X20_cancellation_witness :
  processAlgorithm_loop (λ current, bool_decide (current = 1)) (of_int 0)
    ([Feature (of_int <$> [1; 0; 3]%Z) (of_int <$> [1; 1]%Z)]
     ++ Feature (of_int <$> [0; 0; 4]%Z) (of_int <$> [0; 0]%Z) :: [])
  = processAlgorithm_loop (λ current, bool_decide (current = 1)) (of_int 0)
      [Feature (of_int <$> [1; 0; 3]%Z) (of_int <$> [1; 1]%Z)].
Proof.
  apply (X20_cancellation (λ current, bool_decide (current = 1)) (of_int 0)
           [Feature (of_int <$> [1; 0; 3]%Z) (of_int <$> [1; 1]%Z)] []
           (Feature (of_int <$> [0; 0; 4]%Z) (of_int <$> [0; 0]%Z))).
  reflexivity.
Defined.

(** X21: a line is refused exactly when, once its ends are filled, one of
    its missing values lies between two valid values whose cumulated
    distances have a zero difference. *)
Theorem X21_line_fails_iff (previous : locals)
    (original_z_values seg_lengths : list float) (nodataz : float) :
  length seg_lengths = length original_z_values - 1 →
  process_line previous original_z_values seg_lengths nodataz
  = inl (PyExn ZeroDivisionError)
  ↔ ∃ base_z_values no_filled_vertices i,
      fill_list_ends original_z_values nodataz
      = Ok (Some (base_z_values, no_filled_vertices))
      ∧ zero_divisor_at (cumulated_dist seg_lengths) base_z_values nodataz i.
Proof.
  intros Hgeo. split.
  - intros Hrun.
    destruct (process_line_exception _ _ _ _ _ Hgeo Hrun)
      as (_ & base & n & Hfill & H0 & Hl & Hbl & Hdiv).
    assert (Hdl : length (cumulated_dist seg_lengths) = length base).
    { rewrite length_cumulated_dist, Hbl. pose proof (valid_at_lt _ _ _ H0). lia. }
    pose proof (interpolate_missing_z_spec _ _ _ Hdl H0 Hl) as Hspec.
    rewrite Hdiv in Hspec. destruct Hspec as (_ & i & Hdeg).
    exists base, n, i. auto.
  - intros (base & n & i & Hfill & Hdeg).
    destruct (process_line_cases previous original_z_values seg_lengths nodataz Hgeo)
      as [[Hv _]|[(_ & Hall & _)|(_ & _ & base' & n' & ends & Hfill' & _ & _ & Hbl
                                  & H0 & Hl & Hm)]].
    + exfalso. destruct Hdeg as [(x & Hx & Hxi) _].
      rewrite Forall_forall in Hv.
      apply (valid_invalid nodataz x); [|exact Hxi].
      apply Hv, (filled_elem_of _ _ _ _ Hfill). eapply list_elem_of_lookup_2, Hx.
    + rewrite (all_invalid_None _ _ Hall) in Hfill. discriminate.
    + assert (base' = base) as -> by congruence.
      destruct (process_line previous original_z_values seg_lengths nodataz)
        as [e|[out st]].
      * destruct Hm as [-> _]. reflexivity.
      * exfalso. destruct Hm as [Hloop _].
        assert (Hdl : length (cumulated_dist seg_lengths) = length base).
        { rewrite length_cumulated_dist, Hbl. pose proof (valid_at_lt _ _ _ H0). lia. }
        destruct (interpolate_ok_items _ _ _ _ Hdl H0 Hl Hloop) as [_ Hitems].
        destruct (Hitems i) as (o & _ & Hok).
        { destruct Hdeg as [Hi _]. eapply invalid_at_lt, Hi. }
        exact (item_ok_not_zero_divisor _ _ _ _ _ Hok Hdeg).
Qed.

Lemma X21_line_fails_iff_witness :
  process_line (Locals 0 None None None None [])
               (of_int <$> [1; 0; 3]%Z) (of_int <$> [0; 0]%Z) (of_int 0)
  = inl (PyExn ZeroDivisionError).
Proof.
  apply (X21_line_fails_iff (Locals 0 None None None None [])
           (of_int <$> [1; 0; 3]%Z) (of_int <$> [0; 0]%Z) (of_int 0)).
  - reflexivity.
  - exists (of_int <$> [1; 0; 3]%Z), 0%Z, 1. split; [reflexivity|].
    split; [exists (of_int 0); split; reflexivity|]. exists 0, 2, zero, zero.
    split; [|split; [|split; [|split]]]; try reflexivity.
    + split; [lia|]. split; [exists (of_int 1); split; reflexivity|].
      intros m Hm. assert (m = 1) as -> by lia. exists (of_int 0). split; reflexivity.
    + split; [lia|]. split; [exists (of_int 3); split; reflexivity|].
      intros m Hm. lia.
Defined.
